(** * PolyAI: the heuristic summarisation pipeline of [frontend/app.js]

    A shallow embedding of the local ("fallback") pipeline of
    [src/polyai/frontend/app.js]: [countWords], [runReasoningAgent],
    [runVerificationAgent], [runSimplificationAgent], [runCritiqueAgent],
    [refineSummary] and the helpers they call, followed by the properties
    of the specification that concern them; then [processInput],
    [processLocally], [displayResults] and [handleSummarize], and
    further properties of the whole.

    Conventions of the embedding.

    - A JavaScript string is a [list ascii]: the text is taken to be ASCII
      (code units below 128).  [toLowerCase]/[toUpperCase] map the 26
      letters and leave every other character alone; the class [\s] is
      tab, line feed, vertical tab, form feed, carriage return and space.
    - Array lengths and indices are [nat]; sentence scores and the values
      of sort comparators are [Z].
    - A JavaScript number that is the result of a division is a rational
      [Q] (or a [jsnum], where the divisor may be zero).  The quotients
      are quotients of word counts, and they are only compared with the
      literals 0.3, 0.7 and 0.9: for counts below 10^14 the comparison
      of the doubles agrees with the comparison of the rationals. *)

From Stdlib Require Import ZArith QArith Qround Ascii String Lia.
From stdpp Require Import base list sorting.

Local Open Scope nat_scope.

(** ** Characters and strings *)

Module Js.

Definition jsstring : Type := list ascii.

(** String literals. *)
Definition str (s : string) : jsstring := list_ascii_of_string s.

Definition code (c : ascii) : nat := nat_of_ascii c.

(** The ASCII members of the regular-expression class [\s]
    (and of the characters removed by [String.prototype.trim]). *)
Definition isSpace (c : ascii) : bool :=
  let n := code c in
  ((9 <=? n) && (n <=? 13)) || (n =? 32).

Definition isUpper (c : ascii) : bool := (65 <=? code c) && (code c <=? 90).
Definition isLower (c : ascii) : bool := (97 <=? code c) && (code c <=? 122).

Definition toLowerChar (c : ascii) : ascii :=
  if isUpper c then ascii_of_nat (code c + 32) else c.

Definition toUpperChar (c : ascii) : ascii :=
  if isLower c then ascii_of_nat (code c - 32) else c.

(** [s.toLowerCase()] and [s.toUpperCase()]. *)
Definition toLowerCase (s : jsstring) : jsstring := map toLowerChar s.
Definition toUpperCase (s : jsstring) : jsstring := map toUpperChar s.

Definition eqc (a b : ascii) : bool := Ascii.eqb a b.

(** [s.startsWith(p)]. *)
Fixpoint startsWith (s p : jsstring) : bool :=
  match p, s with
  | [], _ => true
  | _ :: _, [] => false
  | a :: p', b :: s' => eqc a b && startsWith s' p'
  end.

(** [s.endsWith(p)]. *)
Definition endsWith (s p : jsstring) : bool := startsWith (rev s) (rev p).

(** [s.includes(p)]: [p] occurs in [s] at some position. *)
Fixpoint includes (s p : jsstring) : bool :=
  startsWith s p ||
  match s with
  | [] => false
  | _ :: s' => includes s' p
  end.

Fixpoint dropWhile (f : ascii -> bool) (s : jsstring) : jsstring :=
  match s with
  | [] => []
  | c :: s' => if f c then dropWhile f s' else s
  end.

(** [s.trim()]. *)
Definition trimStart (s : jsstring) : jsstring := dropWhile isSpace s.
Definition trimEnd (s : jsstring) : jsstring := rev (dropWhile isSpace (rev s)).
Definition trim (s : jsstring) : jsstring := trimEnd (trimStart s).

(** [s.charAt(0)]: the empty string when [s] is empty. *)
Definition charAt0 (s : jsstring) : jsstring :=
  match s with
  | [] => []
  | c :: _ => [c]
  end.

(** [s.slice(1)]. *)
Definition slice1 (s : jsstring) : jsstring := drop 1 s.

(** [s.split(/\s+/)]: the pieces between the maximal runs of white space.
    A run at the start or at the end of [s] leaves an empty piece there,
    and the empty string splits into one empty piece. *)
Fixpoint splitWs (s : jsstring) : list jsstring :=
  match s with
  | [] => [[]]
  | c :: s' =>
      if isSpace c then
        match s' with
        | d :: _ => if isSpace d then splitWs s' else [] :: splitWs s'
        | [] => [] :: splitWs s'
        end
      else
        match splitWs s' with
        | w :: ws => (c :: w) :: ws
        | [] => [[c]]
        end
  end.

(** [s.replace(/\s+/g, ' ')]: every maximal run of white space becomes
    one space. *)
Fixpoint collapseWs (s : jsstring) : jsstring :=
  match s with
  | [] => []
  | c :: s' =>
      if isSpace c then
        match s' with
        | d :: _ => if isSpace d then collapseWs s' else " "%char :: collapseWs s'
        | [] => " "%char :: collapseWs s'
        end
      else c :: collapseWs s'
  end.

Definition isPunct (c : ascii) : bool :=
  eqc c "."%char || eqc c ","%char || eqc c "!"%char || eqc c "?"%char.

(** Is the first character that is not white space one of [.,!?] ? *)
Definition punctAhead (s : jsstring) : bool :=
  match dropWhile isSpace s with
  | c :: _ => isPunct c
  | [] => false
  end.

(** [s.replace(/\s+([.,!?])/g, '$1')]: a run of white space that is
    directly followed by one of [.,!?] is removed (the greedy [\s+] can
    only end where the run ends, so a character of white space is removed
    exactly when the rest of its run is followed by such a character). *)
Fixpoint stripSpaceBeforePunct (s : jsstring) : jsstring :=
  match s with
  | [] => []
  | c :: s' =>
      if isSpace c && punctAhead s' then stripSpaceBeforePunct s'
      else c :: stripSpaceBeforePunct s'
  end.

(** [parts.join(' ')]. *)
Fixpoint join (parts : list jsstring) : jsstring :=
  match parts with
  | [] => []
  | [p] => p
  | p :: ps => p ++ " "%char :: join ps
  end.

(** One step of a case-insensitive regular expression without the [u]
    flag: two characters match when their canonical (upper-case) forms
    are the same. *)
Definition canonicalize (c : ascii) : ascii := toUpperChar c.

Fixpoint matchCI (pat s : jsstring) : bool :=
  match pat, s with
  | [], _ => true
  | _ :: _, [] => false
  | a :: pat', b :: s' => eqc (canonicalize a) (canonicalize b) && matchCI pat' s'
  end.

(** [s.replace(new RegExp(pat, 'gi'), rep)] for a pattern [pat] of plain
    letters: scanning from the left, every match is replaced by [rep] and
    the scan resumes after the match.  [skip] counts the characters of
    the current match that are still to be passed over. *)
Fixpoint replaceGo (pat rep : jsstring) (skip : nat) (s : jsstring) : jsstring :=
  match s with
  | [] => []
  | c :: s' =>
      match skip with
      | S k => replaceGo pat rep k s'
      | O =>
          if matchCI pat s then rep ++ replaceGo pat rep (length pat - 1) s'
          else c :: replaceGo pat rep 0 s'
      end
  end.

Definition replaceAllCI (pat rep s : jsstring) : jsstring :=
  replaceGo pat rep 0 s.

End Js.

Import Js.

(** [countWords(text)]. *)
Definition countWords (text : jsstring) : nat :=
  match trim text with
  | [] => 0
  | _ :: _ => length (List.filter (fun word => 0 <? length word) (splitWs (trim text)))
  end.

(** ** Numbers *)

Module Num.

(** [x < y] and [x > y] on rationals, as booleans. *)
Definition ltb (x y : Q) : bool := (Qnum x * QDen y <? Qnum y * QDen x)%Z.
Definition gtb (x y : Q) : bool := ltb y x.

(** [Math.round(x)]: the nearest integer, halves going up.  (Where the
    exact value lies on a half, the double [x * 100] of the source may
    fall just below it and round down; none of the properties below
    depends on which neighbour is taken.) *)
Definition round (x : Q) : Z := Qfloor (x + (1 # 2)).

(** [Math.ceil(x)]. *)
Definition ceil (x : Q) : Z := Qceiling x.

(** [n] as a number. *)
Definition ofNat (n : nat) : Q := inject_Z (Z.of_nat n).

(** A number that may come from a division by zero. *)
Inductive jsnum : Type :=
  | Fin (q : Q)
  | PosInf
  | NegInf
  | NaN.

(** [a / b] for two counts: [0 / 0] is [NaN], [a / 0] is [Infinity]. *)
Definition divCounts (a b : nat) : jsnum :=
  match b, a with
  | O, O => NaN
  | O, S _ => PosInf
  | S _, _ => Fin (ofNat a / ofNat b)
  end.

(** [1 - x]. *)
Definition oneMinus (x : jsnum) : jsnum :=
  match x with
  | Fin q => Fin (1 - q)
  | PosInf => NegInf
  | NegInf => PosInf
  | NaN => NaN
  end.

(** [x > q] and [x < q] for a literal [q]; both are false on [NaN]. *)
Definition jgtb (x : jsnum) (q : Q) : bool :=
  match x with
  | Fin p => gtb p q
  | PosInf => true
  | NegInf | NaN => false
  end.

Definition jltb (x : jsnum) (q : Q) : bool :=
  match x with
  | Fin p => ltb p q
  | NegInf => true
  | PosInf | NaN => false
  end.

(** [Math.round(x * 100)]. *)
Definition roundPercent (x : jsnum) : jsnum :=
  match x with
  | Fin p => Fin (inject_Z (round (p * 100)))
  | other => other
  end.

(** Is the number an ordinary (finite) one? *)
Definition isFinite (x : jsnum) : bool :=
  match x with
  | Fin _ => true
  | _ => false
  end.

End Num.

(** ** Arrays *)

Section Sort.
Context {A : Type}.
Variable compare : A -> A -> Z.

(** [x] goes before the first element that must not precede it. *)
Fixpoint insertBy (x : A) (l : list A) : list A :=
  match l with
  | [] => [x]
  | y :: l' => if (compare x y <=? 0)%Z then x :: l else y :: insertBy x l'
  end.

(** [l.sort(compare)]: the sort is stable (ECMAScript 2019), so for a
    comparator that is a consistent ordering the result is the one of a
    stable insertion sort: elements that compare equal keep their order. *)
Definition sortBy (l : list A) : list A := foldr insertBy [] l.

End Sort.

(** ** The data model *)

Record NormalizedDocument : Type := {
  original : jsstring;
  normalized : jsstring;
  sentences : list jsstring;
  wordCount : nat
}.

Record ScoredSentence : Type := {
  sentence : jsstring;
  score : Z;
  index : nat
}.

Module Reasoning.
Record t : Type := { summary : jsstring; confidence : Q; keyPoints : nat }.
End Reasoning.

Module Verification.
Record t : Type := {
  verified : bool;
  coverage : Z;
  issues : list jsstring;
  confidence : Q
}.
End Verification.

Module Simplification.
Record t : Type := {
  summary : jsstring;
  readabilityImproved : bool;
  avgWordLength : Q;
  confidence : Q
}.
End Simplification.

Inductive Quality : Type := Good | Fair | NeedsImprovement.

Module Critique.
Record t : Type := {
  issues : list jsstring;
  compressionRatio : Num.jsnum;
  quality : Quality;
  confidence : Q
}.
End Critique.

(** ** The reasoning agent *)

Definition keyIndicators : list jsstring :=
  map str ["key"; "important"; "main"; "essential"; "critical"; "significant";
           "primary"; "focus"; "because"; "therefore"; "thus"; "result"]%string.

(** The [forEach] over [keyIndicators]: the running score gains 2 for an
    indicator that the lower-cased sentence includes. *)
Definition keywordWeight (lowerSentence : jsstring) (score : Z) : Z :=
  fold_left
    (fun score indicator =>
       if includes lowerSentence indicator then (score + 2)%Z else score)
    keyIndicators score.

(** The callback of [sentences.map]; [len] is [sentences.length]. *)
Definition scoreSentence (len : nat) (index : nat) (sentence : jsstring)
  : ScoredSentence :=
  let score := 0%Z in
  let score := if index <? 2 then (score + 3)%Z else score in
  let score :=
    if (Z.of_nat index =? Z.of_nat len - 1)%Z then (score + 2)%Z else score in
  let lowerSentence := toLowerCase sentence in
  let score := keywordWeight lowerSentence score in
  let wordCount := countWords sentence in
  let score :=
    if (10 <=? wordCount) && (wordCount <=? 30) then (score + 1)%Z else score in
  {| sentence := sentence; score := score; index := index |}.

Definition scoreAll (sentences : list jsstring) : list ScoredSentence :=
  imap (scoreSentence (length sentences)) sentences.

(** [Math.max(3, Math.ceil(sentences.length * 0.3))].  The double
    [n * 0.3] is an integer exactly when [3 n / 10] is, so its ceiling is
    the ceiling of the exact product. *)
Definition selectionCount (len : nat) : Z :=
  Z.max 3 (Num.ceil (Num.ofNat len * (3 # 10))).

(** The sorted, sliced and re-sorted array, before [.map(item => item.sentence)]. *)
Definition topItems (sentences : list jsstring) : list ScoredSentence :=
  sortBy (fun a b => (Z.of_nat (index a) - Z.of_nat (index b))%Z)
    (take (Z.to_nat (selectionCount (length sentences)))
       (sortBy (fun a b => (score b - score a)%Z) (scoreAll sentences))).

Definition topSentences (sentences : list jsstring) : list jsstring :=
  map sentence (topItems sentences).

Definition runReasoningAgent (processed : NormalizedDocument) : Reasoning.t :=
  let topSentences := topSentences (sentences processed) in
  {| Reasoning.summary := join topSentences;
     Reasoning.confidence := 75 # 100;
     Reasoning.keyPoints := length topSentences |}.

(** ** The verification agent *)

Definition issueNotFromSource : jsstring :=
  str "Some claims may not be directly from source".

Definition significantWords (summary : jsstring) : list jsstring :=
  List.filter (fun w => 4 <? length w) (splitWs (toLowerCase summary)).

Definition matchedWords (originalLower summary : jsstring) : list jsstring :=
  List.filter (fun w => includes originalLower w) (significantWords summary).

(** The raw coverage fraction. *)
Definition rawCoverage (processed : NormalizedDocument) (reasoningResult : Reasoning.t) : Q :=
  let originalLower := toLowerCase (normalized processed) in
  let significantWords := significantWords (Reasoning.summary reasoningResult) in
  let matchedWords := matchedWords originalLower (Reasoning.summary reasoningResult) in
  if 0 <? length significantWords
  then Num.ofNat (length matchedWords) / Num.ofNat (length significantWords)
  else 0.

Definition runVerificationAgent (processed : NormalizedDocument)
    (reasoningResult : Reasoning.t) : Verification.t :=
  let coverage := rawCoverage processed reasoningResult in
  {| Verification.verified := Num.gtb coverage (7 # 10);
     Verification.coverage := Num.round (coverage * 100);
     Verification.issues :=
       if Num.ltb coverage (7 # 10) then [issueNotFromSource] else [];
     Verification.confidence := coverage |}.

(** ** The simplification agent *)

(** The entries of [replacements], in insertion order. *)
Definition replacements : list (jsstring * jsstring) :=
  map (fun e => (str (fst e), str (snd e)))
    [("utilize", "use"); ("implement", "set up"); ("facilitate", "help");
     ("demonstrate", "show"); ("significant", "important");
     ("approximately", "about"); ("subsequently", "then");
     ("consequently", "so"); ("nevertheless", "but");
     ("furthermore", "also")]%string.

(** [averageWordLength(text)]. *)
Definition averageWordLength (text : jsstring) : Q :=
  let words := List.filter (fun w => 0 <? length w) (splitWs text) in
  match words with
  | [] => 0
  | _ :: _ =>
      let totalLength := fold_left (fun sum word => sum + length word) words 0 in
      Num.ofNat totalLength / Num.ofNat (length words)
  end.

(** The [forEach] over [Object.entries(replacements)]. *)
Definition applyReplacements (summary : jsstring) : jsstring :=
  fold_left
    (fun simplified entry => replaceAllCI (fst entry) (snd entry) simplified)
    replacements summary.

(** [avgWordLength] is [simplifiedWordLength.toFixed(1)]; it is kept as
    the number rounded to tenths. *)
Definition runSimplificationAgent (processed : NormalizedDocument)
    (reasoningResult : Reasoning.t) : Simplification.t :=
  let simplified := applyReplacements (Reasoning.summary reasoningResult) in
  let originalWordLength := averageWordLength (Reasoning.summary reasoningResult) in
  let simplifiedWordLength := averageWordLength simplified in
  {| Simplification.summary := simplified;
     Simplification.readabilityImproved :=
       Num.ltb simplifiedWordLength originalWordLength;
     Simplification.avgWordLength :=
       inject_Z (Num.round (simplifiedWordLength * 10)) / 10;
     Simplification.confidence := 8 # 10 |}.

(** ** The critique agent *)

Fixpoint eqs (a b : jsstring) : bool :=
  match a, b with
  | [], [] => true
  | x :: a', y :: b' => eqc x y && eqs a' b'
  | _, _ => false
  end.

Definition stopWords : list jsstring :=
  map str
    ["the"; "a"; "an"; "is"; "are"; "was"; "were"; "be"; "been"; "being";
     "have"; "has"; "had"; "do"; "does"; "did"; "will"; "would"; "could";
     "should"; "may"; "might"; "must"; "shall"; "can"; "need"; "dare";
     "ought"; "used"; "to"; "of"; "in"; "for"; "on"; "with"; "at"; "by";
     "from"; "as"; "into"; "through"; "during"; "before"; "after"; "above";
     "below"; "between"; "under"; "again"; "further"; "then"; "once";
     "here"; "there"; "when"; "where"; "why"; "how"; "all"; "each"; "few";
     "more"; "most"; "other"; "some"; "such"; "no"; "nor"; "not"; "only";
     "own"; "same"; "so"; "than"; "too"; "very"; "just"; "and"; "but"; "if";
     "or"; "because"; "until"; "while"; "this"; "that"; "these"; "those";
     "it"; "its"]%string.

(** [word.replace(/[^a-z]/g, '')]. *)
Definition cleanWord (word : jsstring) : jsstring := List.filter isLower word.

(** [wordFreq[cleaned] = (wordFreq[cleaned] || 0) + 1] on the entries of
    [wordFreq], kept in insertion order. *)
Fixpoint bump (cleaned : jsstring) (wordFreq : list (jsstring * nat))
  : list (jsstring * nat) :=
  match wordFreq with
  | [] => [(cleaned, 1)]
  | (w, n) :: rest =>
      if eqs w cleaned then (w, S n) :: rest else (w, n) :: bump cleaned rest
  end.

Definition countTerms (words : list jsstring) : list (jsstring * nat) :=
  fold_left
    (fun wordFreq word =>
       let cleaned := cleanWord word in
       if (4 <? length cleaned) && negb (existsb (eqs cleaned) stopWords)
       then bump cleaned wordFreq else wordFreq)
    words [].

(** [extractImportantTerms(text)].  The key [constructor] is never kept:
    [wordFreq] starts as [{}], whose inherited [constructor] is not a
    number, so the count stored under that key is a string and fails
    [count >= 2]. *)
Definition extractImportantTerms (text : jsstring) : list jsstring :=
  let words := splitWs (toLowerCase text) in
  let wordFreq := countTerms words in
  map fst
    (take 10
       (sortBy (fun a b => (Z.of_nat (snd b) - Z.of_nat (snd a))%Z)
          (List.filter
             (fun e => (2 <=? snd e) && negb (eqs (fst e) (str "constructor")))
             wordFreq))).

Definition issueOverCompressed : jsstring := str "Summary may be over-compressed".
Definition issueMoreConcise : jsstring := str "Summary could be more concise".

(** [missedTerms.slice(0, 3).join(', ')] behind the prefix. *)
Fixpoint joinComma (parts : list jsstring) : jsstring :=
  match parts with
  | [] => []
  | [p] => p
  | p :: ps => p ++ str ", " ++ joinComma ps
  end.

Definition issueMissing (missedTerms : list jsstring) : jsstring :=
  str "May be missing: " ++ joinComma (take 3 missedTerms).

Definition runCritiqueAgent (processed : NormalizedDocument)
    (reasoningResult : Reasoning.t) : Critique.t :=
  let summary := Reasoning.summary reasoningResult in
  let original := normalized processed in
  let issues := [] in
  let summaryWordCount := countWords summary in
  let originalWordCount := countWords original in
  let compressionRatio :=
    Num.oneMinus (Num.divCounts summaryWordCount originalWordCount) in
  let issues :=
    if Num.jgtb compressionRatio (9 # 10)
    then issues ++ [issueOverCompressed] else issues in
  let issues :=
    if Num.jltb compressionRatio (3 # 10)
    then issues ++ [issueMoreConcise] else issues in
  let importantTerms := extractImportantTerms original in
  let missedTerms :=
    List.filter
      (fun term => negb (includes (toLowerCase summary) (toLowerCase term)))
      importantTerms in
  let issues :=
    if 3 <? length missedTerms
    then issues ++ [issueMissing missedTerms] else issues in
  {| Critique.issues := issues;
     Critique.compressionRatio := Num.roundPercent compressionRatio;
     Critique.quality :=
       if length issues =? 0 then Good
       else if length issues <? 2 then Fair
       else NeedsImprovement;
     Critique.confidence := 7 # 10 |}.

(** ** The output refiner *)

(** The text that [refineSummary] starts from. *)
Definition baseText (reasoning : Reasoning.t) (verification : Verification.t)
    (simplification : Simplification.t) : jsstring :=
  if Verification.verified verification
  then Simplification.summary simplification
  else Reasoning.summary reasoning.

(** The clean-up, capitalisation and final period. *)
Definition polish (finalSummary : jsstring) : jsstring :=
  let finalSummary := trim (stripSpaceBeforePunct (collapseWs finalSummary)) in
  let finalSummary := toUpperCase (charAt0 finalSummary) ++ slice1 finalSummary in
  if negb (endsWith finalSummary (str ".")) &&
     negb (endsWith finalSummary (str "!")) &&
     negb (endsWith finalSummary (str "?"))
  then finalSummary ++ str "."
  else finalSummary.

Definition refineSummary (reasoning : Reasoning.t) (verification : Verification.t)
    (simplification : Simplification.t) (critique : Critique.t) : jsstring :=
  polish (baseText reasoning verification simplification).

(** ** Notions of the specification *)

(** The number of positions of [s] at which [p] occurs. *)
Fixpoint occurrences (s p : jsstring) : nat :=
  (if startsWith s p then 1 else 0) +
  match s with
  | [] => 0
  | _ :: s' => occurrences s' p
  end.

(** The number of indicator terms that occur in [lowerSentence]. *)
Definition indicatorsPresent (lowerSentence : jsstring) : nat :=
  length (List.filter (fun t => 0 <? occurrences lowerSentence t) keyIndicators).

(** The number of occurrences of indicator terms in [lowerSentence],
    every occurrence of every term counted. *)
Definition indicatorOccurrences (lowerSentence : jsstring) : nat :=
  fold_left (fun n t => n + occurrences lowerSentence t) keyIndicators 0.

Definition positionBonus (len index : nat) : Z :=
  (if index <? 2 then 3%Z else 0%Z) +
  (if (Z.of_nat index =? Z.of_nat len - 1)%Z then 2%Z else 0%Z).

Definition lengthBonus (sentence : jsstring) : Z :=
  if (10 <=? countWords sentence) && (countWords sentence <=? 30) then 1%Z else 0%Z.

(** The score as the specification words it: 2 for each occurrence of an
    indicator term. *)
Definition scorePerOccurrence (len index : nat) (sentence : jsstring) : Z :=
  (positionBonus len index
   + 2 * Z.of_nat (indicatorOccurrences (toLowerCase sentence))
   + lengthBonus sentence)%Z.

(** Does the text end in one of [.], [!], [?] ? *)
Definition endsWithTerminal (s : jsstring) : bool :=
  endsWith s (str ".") || endsWith s (str "!") || endsWith s (str "?").

(** Does the text contain, in any letter case, one of the terms that the
    simplifier replaces? *)
Definition containsMappedTerm (s : jsstring) : bool :=
  existsb (fun entry => includes (toLowerCase s) (fst entry)) replacements.

(** The item [it] carries the sentence that [ss] holds at its index,
    the indices being counted from [off]. *)
Definition itemOf (ss : list jsstring) (off : nat) (it : ScoredSentence) : Prop :=
  off <= index it /\ ss !! (index it - off) = Some (sentence it).

(** The comparator [(a, b) => key(a) - key(b)]. *)
Definition ascending {A : Type} (key : A -> nat) (a b : A) : Z :=
  (Z.of_nat (key a) - Z.of_nat (key b))%Z.

(** ** Sample inputs *)

Module Sample.

(** A document without any word, as [processInput] builds it from a text
    that is a single long URL. *)
Definition emptyDoc : NormalizedDocument :=
  {| original := str "https://example.org/a/very/long/path/that/goes/on/and/on/for/more/than/one/hundred/characters/in/total/index.html";
     normalized := [];
     sentences := [];
     wordCount := 0 |}.

Definition emptyReasoning : Reasoning.t := runReasoningAgent emptyDoc.
Definition emptyVerification : Verification.t :=
  runVerificationAgent emptyDoc emptyReasoning.
Definition emptySimplification : Simplification.t :=
  runSimplificationAgent emptyDoc emptyReasoning.
Definition emptyCritique : Critique.t := runCritiqueAgent emptyDoc emptyReasoning.

(** Ten significant words in the summary, seven of them in the source. *)
Definition boundaryDoc : NormalizedDocument :=
  {| original := str "alpha bravo";
     normalized := str "alpha bravo";
     sentences := [];
     wordCount := 2 |}.

Definition boundaryReasoning : Reasoning.t :=
  {| Reasoning.summary :=
       str "alpha alpha alpha alpha bravo bravo bravo delta delta delta";
     Reasoning.confidence := 75 # 100;
     Reasoning.keyPoints := 1 |}.

(** A sentence with the indicator [key] twice. *)
Definition twiceKey : jsstring := str "The key to the lock is the other key".

(** A source of twelve words, six terms twice each, and a summary of
    one word. *)
Definition repetitiveDoc : NormalizedDocument :=
  {| original := str "alpha alpha bravo bravo delta delta gamma gamma omega omega kappa kappa";
     normalized := str "alpha alpha bravo bravo delta delta gamma gamma omega omega kappa kappa";
     sentences := [];
     wordCount := 12 |}.

Definition tinyReasoning : Reasoning.t :=
  {| Reasoning.summary := str "Short";
     Reasoning.confidence := 75 # 100;
     Reasoning.keyPoints := 1 |}.

(** A summary without any of the replaced terms. *)
Definition plainReasoning : Reasoning.t :=
  {| Reasoning.summary := str "The cat sat on the mat. It was warm.";
     Reasoning.confidence := 75 # 100;
     Reasoning.keyPoints := 2 |}.

End Sample.

(** ** The input processor *)

Definition isDigit (c : ascii) : bool := (48 <=? code c) && (code c <=? 57).

(** The class [\w], and the class [[\w.-]] of the e-mail pattern. *)
Definition isWordChar (c : ascii) : bool :=
  isLower c || isUpper c || isDigit c || eqc c "_"%char.

Definition isEmailChar (c : ascii) : bool :=
  isWordChar c || eqc c "."%char || eqc c "-"%char.

Fixpoint takeWhile (f : ascii -> bool) (s : jsstring) : jsstring :=
  match s with
  | [] => []
  | c :: s' => if f c then c :: takeWhile f s' else []
  end.

(** [s.replace(re, '')] for a global pattern [re] that never matches the
    empty string: [matchLength s] is the length of the match of [re] at
    the start of [s], if there is one.  Scanning from the left, a match
    is dropped and the scan resumes behind it; [skip] counts the
    characters of the current match that are still to be dropped. *)
Fixpoint removeMatches (matchLength : jsstring -> option nat) (skip : nat)
    (s : jsstring) : jsstring :=
  match s with
  | [] => []
  | c :: s' =>
      match skip with
      | S k => removeMatches matchLength k s'
      | O =>
          match matchLength s with
          | Some (S n) => removeMatches matchLength n s'
          | _ => c :: removeMatches matchLength 0 s'
          end
      end
  end.

(** The match of [/https?:\/\/[^\s]+/i] at the start of [s]: the scheme,
    in any letter case, and then all the characters up to the next white
    space, of which there must be one at least. *)
Definition urlMatchLength (s : jsstring) : option nat :=
  let scheme :=
    if matchCI (str "https://") s then Some 8
    else if matchCI (str "http://") s then Some 7
    else None in
  match scheme with
  | Some n =>
      match length (takeWhile (fun c => negb (isSpace c)) (drop n s)) with
      | O => None
      | S k => Some (n + S k)
      end
  | None => None
  end.

Definition startsWithWordChar (s : jsstring) : bool :=
  match s with
  | d :: _ => isWordChar d
  | [] => false
  end.

(** The last position of [dom], other than its first, that holds a dot
    with a word character behind it; [pos] is the position of the head
    of [dom]. *)
Fixpoint lastDot (pos : nat) (dom : jsstring) : option nat :=
  match dom with
  | [] => None
  | c :: dom' =>
      match lastDot (S pos) dom' with
      | Some m => Some m
      | None =>
          if (0 <? pos) && eqc c "."%char && startsWithWordChar dom'
          then Some pos else None
      end
  end.

(** The match of [/[\w.-]+@[\w.-]+\.\w+/i] at the start of [s].  The
    local part is the whole run of [[\w.-]] before the [@].  The domain
    is taken from the run of [[\w.-]] behind the [@]: greedy matching
    with backtracking ends it at the last dot of the run that has
    something before it and a word character behind it, and the match
    goes on through the word characters behind that dot. *)
Definition emailMatchLength (s : jsstring) : option nat :=
  let localPart := takeWhile isEmailChar s in
  match localPart, drop (length localPart) s with
  | _ :: _, a :: rest =>
      if eqc a "@"%char then
        let dom := takeWhile isEmailChar rest in
        match lastDot 0 dom with
        | Some m =>
            Some (length localPart + 1 + (m + 1)
                  + length (takeWhile isWordChar (drop (m + 1) dom)))
        | None => None
        end
      else None
  | _, _ => None
  end.

Definition startsWithSpace (s : jsstring) : bool :=
  match s with
  | c :: _ => isSpace c
  | [] => false
  end.

Definition isTerminal (c : ascii) : bool :=
  eqc c "."%char || eqc c "!"%char || eqc c "?"%char.

(** [s.split(/(?<=[.!?])\s+/)]: the text is cut at every run of white
    space that stands behind one of [.!?]; the run is dropped.  With
    [skipping] the scan is inside such a run. *)
Fixpoint splitSentences (skipping : bool) (s : jsstring) : list jsstring :=
  match s with
  | [] => [[]]
  | c :: s' =>
      if skipping && isSpace c then splitSentences true s'
      else
        let cut := isTerminal c && startsWithSpace s' in
        match cut, splitSentences cut s' with
        | true, rest => [c] :: rest
        | false, w :: ws => (c :: w) :: ws
        | false, [] => [[c]]
        end
  end.

(** [processInput(text)]. *)
Definition processInput (text : jsstring) : NormalizedDocument :=
  let processed := trim (collapseWs text) in
  let processed := removeMatches urlMatchLength 0 processed in
  let processed := removeMatches emailMatchLength 0 processed in
  let sentences :=
    List.filter (fun s => 10 <? length s) (splitSentences false processed) in
  {| original := text;
     normalized := processed;
     sentences := sentences;
     wordCount := countWords processed |}.

(** ** The local pipeline *)

Record Agents : Type := {
  reasoning : Reasoning.t;
  verification : Verification.t;
  simplification : Simplification.t;
  critique : Critique.t
}.

(** The result of a summarisation; a response of the backend may come
    without the [agents]. *)
Module Result.
Record t : Type := { summary : jsstring; agents : option Agents }.
End Result.

(** [processLocally(text)]; the simulated delays are left out. *)
Definition processLocally (text : jsstring) : Result.t :=
  let processed := processInput text in
  let reasoningResult := runReasoningAgent processed in
  let verificationResult := runVerificationAgent processed reasoningResult in
  let simplificationResult := runSimplificationAgent processed reasoningResult in
  let critiqueResult := runCritiqueAgent processed reasoningResult in
  let finalSummary :=
    refineSummary reasoningResult verificationResult simplificationResult
      critiqueResult in
  {| Result.summary := finalSummary;
     Result.agents :=
       Some {| reasoning := reasoningResult;
               verification := verificationResult;
               simplification := simplificationResult;
               critique := critiqueResult |} |}.

(** What [displayResults(result, originalText, latency)] writes to the
    page, the latency apart: the HTML assigned to
    [outputContent.innerHTML], the two word counts, the compression, and
    the agent results of the debug panel. *)
Record Display : Type := {
  outputContent : jsstring;
  originalWords : nat;
  summaryWords : nat;
  compression : Num.jsnum;
  debugPanel : option Agents
}.

Definition displayResults (debugMode : bool) (result : Result.t)
    (originalText : jsstring) : Display :=
  {| outputContent := str "<p>" ++ Result.summary result ++ str "</p>";
     originalWords := countWords originalText;
     summaryWords := countWords (Result.summary result);
     compression :=
       Num.roundPercent
         (Num.oneMinus
            (Num.divCounts (countWords (Result.summary result))
               (countWords originalText)));
     debugPanel := if debugMode then Result.agents result else None |}.

(** What a click on the button leads to: a toast, nothing (a run is in
    progress), or a display. *)
Inductive Outcome : Type :=
  | Toast (message : jsstring)
  | Ignored
  | Displayed (display : Display).

(** [handleSummarize()], on the value of the input field.  The state is
    [isProcessing] and [debugMode]; [callBackendAPI] is the request to
    the backend, [None] when it throws, upon which the text is processed
    locally. *)
Definition handleSummarize (isProcessing debugMode : bool)
    (callBackendAPI : jsstring -> option Result.t) (inputValue : jsstring)
  : Outcome :=
  let text := trim inputValue in
  match text with
  | [] => Toast (str "Please enter some text to summarize")
  | _ :: _ =>
      if length text <? 100 then Toast (str "Please enter at least 100 characters")
      else if isProcessing then Ignored
      else
        match callBackendAPI text with
        | Some result => Displayed (displayResults debugMode result text)
        | None => Displayed (displayResults debugMode (processLocally text) text)
        end
  end.

(** ** Further notions *)

(** The words of a text: the non-empty pieces between its white space. *)
Definition words (s : jsstring) : list jsstring :=
  List.filter (fun w => 0 <? length w) (splitWs s).

(** A text without any character other than white space. *)
Definition isBlank (s : jsstring) : bool := forallb isSpace s.

(** [p] occurs in [s] as a contiguous part. *)
Definition infixOf (p s : jsstring) : Prop := exists a b, s = a ++ p ++ b.

(** The sum of a list of counts. *)
Definition total (counts : list nat) : nat := fold_right Nat.add 0 counts.

(** How the first piece [w] of a split sits in the text [s], [ws] being
    the later pieces: it is the whole text, or it is followed by white
    space, and the words of the later pieces are those of the rest. *)
Definition firstPiece (s w : jsstring) (ws : list jsstring) : Prop :=
  (ws = [] /\ s = w) \/
  (exists c rest,
     isSpace c = true /\ s = w ++ c :: rest /\
     concat (map words ws) = words rest).

(** Does a URL, as the pattern of [processInput] has it, start at the
    head of [s]?  And is the text free of URLs? *)
Definition urlStart (s : jsstring) : bool :=
  match urlMatchLength s with
  | Some _ => true
  | None => false
  end.

Fixpoint noUrlLeft (s : jsstring) : bool :=
  match s with
  | [] => true
  | _ :: s' => negb (urlStart s) && noUrlLeft s'
  end.

Definition nonSpace (c : ascii) : bool := negb (isSpace c).

(** A scheme [http://] or [https://], in any letter case. *)
Definition isScheme (pre : jsstring) : Prop :=
  (matchCI (str "https://") pre = true /\ length pre = 8) \/
  (matchCI (str "http://") pre = true /\ length pre = 7).

(** The only white space of the text is the space character. *)
Definition onlySpaces (s : jsstring) : bool :=
  forallb (fun c => negb (isSpace c) || eqc c " "%char) s.

(** The text holds no [@]. *)
Definition noAtSign (s : jsstring) : bool :=
  forallb (fun c => negb (eqc c "@"%char)) s.

(** Every sentence of the document occurs in its normalized text, as it
    does when the sentences are segments of that text. *)
Definition sentencesFromText (doc : NormalizedDocument) : Prop :=
  Forall (fun t => infixOf t (normalized doc)) (sentences doc).

(** The order in which the first sort leaves the scored sentences: the
    higher score first and, at equal scores, the lower index first. *)
Definition ranksBefore (a b : ScoredSentence) : Prop :=
  (score b < score a)%Z \/ (score a = score b /\ index a < index b).

(** How often the term [t] occurs among the cleaned words of the
    lower-cased text. *)
Definition termFrequency (text t : jsstring) : nat :=
  length
    (List.filter (fun word => eqs (cleanWord word) t)
       (splitWs (toLowerCase text))).

(** The count recorded for [t] in the entries of [wordFreq]. *)
Fixpoint countOf (t : jsstring) (wordFreq : list (jsstring * nat)) : nat :=
  match wordFreq with
  | [] => 0
  | (w, n) :: rest => if eqs w t then n else countOf t rest
  end.

(** The test that a cleaned word passes to be counted. *)
Definition counted (cleaned : jsstring) : bool :=
  (4 <? length cleaned) && negb (existsb (eqs cleaned) stopWords).

(** What the counting keeps: the keys of [wordFreq] are distinct, and
    each is a counted word of lower-case letters. *)
Definition keysOk (wordFreq : list (jsstring * nat)) : Prop :=
  NoDup (map fst wordFreq) /\
  Forall (fun w => counted w = true /\ forallb isLower w = true)
    (map fst wordFreq).

(** The shape of a refined summary. *)

Definition startsWithPunct (s : jsstring) : bool :=
  match s with
  | c :: _ => isPunct c
  | [] => false
  end.

Fixpoint endsWithSpace (s : jsstring) : bool :=
  match s with
  | [] => false
  | c :: s' =>
      match s' with
      | [] => isSpace c
      | _ :: _ => endsWithSpace s'
      end
  end.

(** All white space is single spaces: a character of white space is a
    space, and no character of white space follows it. *)
Fixpoint singleSpaced (s : jsstring) : bool :=
  match s with
  | [] => true
  | c :: s' =>
      (negb (isSpace c) || (eqc c " "%char && negb (startsWithSpace s')))
      && singleSpaced s'
  end.

(** No white space stands directly before one of [.,!?]. *)
Fixpoint noSpaceBeforePunct (s : jsstring) : bool :=
  match s with
  | [] => true
  | c :: s' => negb (isSpace c && startsWithPunct s') && noSpaceBeforePunct s'
  end.

Definition startsWithLower (s : jsstring) : bool :=
  match s with
  | c :: _ => isLower c
  | [] => false
  end.

(** [finalSummary.charAt(0).toUpperCase() + finalSummary.slice(1)]. *)
Definition capitalize (s : jsstring) : jsstring :=
  toUpperCase (charAt0 s) ++ slice1 s.

(** Every term is in lower case and longer than what replaces it. *)
Definition shortening (entries : list (jsstring * jsstring)) : bool :=
  forallb
    (fun entry =>
       eqs (toLowerCase (fst entry)) (fst entry) &&
       (length (snd entry) <? length (fst entry)))
    entries.

(** ** Further sample inputs *)

Module Example.

(** A document of four sentences, as [processInput] builds it. *)
Definition fourSentences : list jsstring :=
  map str ["The harbour opens at dawn every day.";
           "Boats leave because the tide is high.";
           "Nets are mended on the quay.";
           "The market closes when the catch is sold."]%string.

Definition harbourDoc : NormalizedDocument :=
  {| original := join fourSentences;
     normalized := join fourSentences;
     sentences := fourSentences;
     wordCount := 28 |}.

Definition harbourReasoning : Reasoning.t := runReasoningAgent harbourDoc.

(** A document of three sentences, the first three of the harbour, as
    [processInput] builds it from their text. *)
Definition quayDoc : NormalizedDocument :=
  {| original := join (take 3 fourSentences);
     normalized := join (take 3 fourSentences);
     sentences := take 3 fourSentences;
     wordCount := 20 |}.

(** A summary with two of the replaced terms. *)
Definition wordyReasoning : Reasoning.t :=
  {| Reasoning.summary :=
       str "We Utilize the method and subsequently demonstrate it.";
     Reasoning.confidence := 75 # 100;
     Reasoning.keyPoints := 1 |}.

(** A text of some 150 characters with a URL and an e-mail address. *)
Definition harbourText : jsstring :=
  str "The harbour opens at dawn, see https://harbour.example/times for more. Boats leave because the tide is high. Write to master@harbour.example for a berth.".

(** A backend that cannot be reached. *)
Definition noBackend (text : jsstring) : option Result.t := None.

End Example.

(** * Properties *)

(** ** Strings *)

Lemma eqc_refl c : eqc c c = true.
Proof. apply Ascii.eqb_refl. Qed.

Lemma eqs_eq a : forall b, eqs a b = true -> a = b.
Proof.
  induction a as [|x a IH]; intros [|y b] H; try discriminate; [reflexivity|].
  simpl in H. apply andb_true_iff in H as [Hx H].
  apply Ascii.eqb_eq in Hx. subst y. f_equal. now apply IH.
Qed.

Lemma startsWith_nil s : startsWith s [] = true.
Proof. now destruct s. Qed.

Lemma startsWith_cons_same c s : startsWith (c :: s) [c] = true.
Proof. simpl. now rewrite eqc_refl, startsWith_nil. Qed.

Lemma endsWith_snoc s c : endsWith (s ++ [c]) [c] = true.
Proof. unfold endsWith. rewrite rev_app_distr. apply startsWith_cons_same. Qed.

Lemma includes_occurrences s p : includes s p = (0 <? occurrences s p).
Proof.
  induction s as [|c s IH]; cbn [includes occurrences].
  - now destruct (startsWith [] p).
  - rewrite IH. destruct (startsWith (c :: s) p); [reflexivity|].
    now rewrite orb_false_l.
Qed.

Lemma lower_upper_char c : toLowerChar (toUpperChar c) = toLowerChar c.
Proof. destruct c as [[] [] [] [] [] [] [] []]; reflexivity. Qed.

(** A case-insensitive match is an occurrence in the lower-cased text. *)
Lemma matchCI_startsWith_lower pat : forall s,
  matchCI pat s = true ->
  startsWith (toLowerCase s) (toLowerCase pat) = true.
Proof.
  induction pat as [|a pat IH]; intros s H.
  - apply startsWith_nil.
  - destruct s as [|b s]; [discriminate|].
    simpl in H. apply andb_true_iff in H as [Hc Hm].
    apply Ascii.eqb_eq in Hc. unfold canonicalize in Hc.
    simpl. rewrite (IH _ Hm), andb_true_r.
    apply Ascii.eqb_eq.
    now rewrite <- (lower_upper_char a), Hc, lower_upper_char.
Qed.

(** Replacing a pattern that does not occur changes nothing. *)
Lemma replaceGo_absent pat rep : forall s,
  includes (toLowerCase s) (toLowerCase pat) = false ->
  replaceGo pat rep 0 s = s.
Proof.
  induction s as [|c s IH]; intros H; [reflexivity|].
  change (toLowerCase (c :: s)) with (toLowerChar c :: toLowerCase s) in H.
  cbn [includes] in H. apply orb_false_iff in H as [Hs Hi].
  cbn [replaceGo].
  destruct (matchCI pat (c :: s)) eqn:M.
  - apply matchCI_startsWith_lower in M.
    change (toLowerCase (c :: s)) with (toLowerChar c :: toLowerCase s) in M.
    congruence.
  - now rewrite IH.
Qed.

(** ** Numbers and lists *)

Lemma ltb_Qlt x y : Num.ltb x y = true <-> (x < y)%Q.
Proof. unfold Num.ltb, Qlt. apply Z.ltb_lt. Qed.

Lemma ofNat_nonneg n : (0 <= Num.ofNat n)%Q.
Proof.
  unfold Num.ofNat. change 0%Q with (inject_Z 0).
  rewrite <- Zle_Qle. lia.
Qed.

Lemma ofNat_pos n : 0 < n -> (0 < Num.ofNat n)%Q.
Proof.
  intros H. unfold Num.ofNat. change 0%Q with (inject_Z 0).
  rewrite <- Zlt_Qlt. lia.
Qed.

Lemma round_percent_range q : (0 <= q <= 1)%Q -> (0 <= Num.round (q * 100) <= 100)%Z.
Proof.
  intros [H0 H1]. unfold Num.round. split.
  - change 0%Z with (Qfloor 0). apply Qfloor_resp_le.
    apply Qle_trans with (0 * 100 + (1 # 2))%Q; [discriminate|].
    apply Qplus_le_l. apply Qmult_le_compat_r; [assumption | discriminate].
  - change 100%Z with (Qfloor (1 * 100 + (1 # 2))). apply Qfloor_resp_le.
    apply Qplus_le_l. apply Qmult_le_compat_r; [assumption | discriminate].
Qed.

Lemma ceil_three_tenths n :
  Num.ceil (Num.ofNat n * (3 # 10)) = ((3 * Z.of_nat n + 9) / 10)%Z.
Proof.
  unfold Num.ceil, Qceiling, Qfloor, Num.ofNat. simpl.
  Z.div_mod_to_equations. lia.
Qed.

(** The two compression thresholds exclude each other. *)
Lemma compression_thresholds_disjoint x :
  Num.jgtb x (9 # 10) = true -> Num.jltb x (3 # 10) = false.
Proof.
  destruct x as [p| | |]; simpl; try discriminate; try reflexivity.
  unfold Num.gtb, Num.ltb. intros H.
  apply Z.ltb_lt in H. apply Z.ltb_ge. simpl in *. lia.
Qed.

Lemma filter_length_le {A} (f : A -> bool) (l : list A) :
  length (List.filter f l) <= length l.
Proof.
  induction l as [|a l IH]; simpl; [lia|].
  destruct (f a); simpl; lia.
Qed.

Lemma fold_bonus {A} (f : A -> bool) (l : list A) : forall score : Z,
  fold_left (fun score t => if f t then (score + 2)%Z else score) l score =
  (score + 2 * Z.of_nat (length (List.filter f l)))%Z.
Proof.
  induction l as [|t l IH]; intros score; simpl; [lia|].
  rewrite IH. destruct (f t); simpl length; lia.
Qed.

(** ** Sorting *)

Section SortFacts.
Context {A : Type}.
Variable compare : A -> A -> Z.

Lemma insertBy_Permutation x l : Permutation (insertBy compare x l) (x :: l).
Proof.
  induction l as [|y l IH]; simpl; [reflexivity|].
  destruct (compare x y <=? 0)%Z; [reflexivity|].
  rewrite IH. apply perm_swap.
Qed.

Lemma sortBy_Permutation l : Permutation (sortBy compare l) l.
Proof.
  induction l as [|x l IH]; simpl; [reflexivity|].
  rewrite insertBy_Permutation. now rewrite IH.
Qed.

Lemma length_sortBy l : length (sortBy compare l) = length l.
Proof. apply Permutation_length, sortBy_Permutation. Qed.

End SortFacts.

(** Sorting on a key in ascending order, as [(a, b) => a.index - b.index] does. *)
Section SortByKey.
Context {A : Type}.
Variable key : A -> nat.

Lemma insertBy_key_sorted x l :
  StronglySorted (fun a b => key a <= key b) l ->
  StronglySorted (fun a b => key a <= key b) (insertBy (ascending key) x l).
Proof.
  induction 1 as [|y l Hl IH Hy]; simpl.
  - repeat constructor.
  - destruct (Z.leb_spec (ascending key x y) 0) as [Hc|Hc]; unfold ascending in Hc.
    + constructor; [now constructor|].
      constructor; [lia|].
      eapply Forall_impl; [exact Hy|]. intros z Hz. simpl in *. lia.
    + constructor; [exact IH|].
      eapply Permutation_Forall; [symmetry; apply insertBy_Permutation|].
      constructor; [lia | exact Hy].
Qed.

Lemma sortBy_key_sorted l :
  StronglySorted (fun a b => key a <= key b) (sortBy (ascending key) l).
Proof.
  induction l as [|x l IH]; simpl; [constructor|].
  now apply insertBy_key_sorted.
Qed.

(** Distinct keys come out strictly increasing. *)
Lemma sortBy_key_strictly_sorted l :
  NoDup (key <$> l) ->
  StronglySorted (fun a b => key a < key b) (sortBy (ascending key) l).
Proof.
  intros ND.
  assert (ND' : NoDup (key <$> sortBy (ascending key) l)).
  { now rewrite sortBy_Permutation. }
  pose proof (sortBy_key_sorted l) as SS.
  induction SS as [|x k Hk IH Hx]; [constructor|].
  rewrite fmap_cons in ND'. apply NoDup_cons in ND' as [Hnotin ND'].
  constructor; [now apply IH|].
  apply Forall_forall. intros y Hy.
  rewrite Forall_forall in Hx. specialize (Hx y Hy). simpl in Hx.
  assert (key x <> key y); [|lia].
  intros E. apply Hnotin. rewrite E. now apply list_elem_of_fmap_2.
Qed.

End SortByKey.

(** ** The reasoning agent *)

Lemma keywordWeight_indicatorsPresent lowerSentence score :
  keywordWeight lowerSentence score =
  (score + 2 * Z.of_nat (indicatorsPresent lowerSentence))%Z.
Proof.
  unfold keywordWeight, indicatorsPresent. rewrite fold_bonus.
  rewrite (List.filter_ext (includes lowerSentence)
             (fun t => 0 <? occurrences lowerSentence t));
    [reflexivity | intros t; apply includes_occurrences].
Qed.

Lemma indicatorsPresent_le_12 s : indicatorsPresent s <= 12.
Proof. unfold indicatorsPresent. now rewrite filter_length_le. Qed.

(** C2, as amended: the keyword weight of a sentence is 2 for every
    indicator term that occurs in the lower-cased sentence, however often
    the term occurs there.  The score is the position bonus, plus this
    weight, plus the length bonus; the keyword weight is at most 24. *)
Theorem score_counts_indicator_terms_once len index sentence :
  score (scoreSentence len index sentence) =
    (positionBonus len index
     + 2 * Z.of_nat (indicatorsPresent (toLowerCase sentence))
     + lengthBonus sentence)%Z /\
  indicatorsPresent (toLowerCase sentence) <= 12.
Proof.
  split; [|apply indicatorsPresent_le_12].
  unfold scoreSentence, positionBonus, lengthBonus. cbn [score].
  rewrite keywordWeight_indicatorsPresent.
  destruct (index <? 2); destruct (Z.of_nat index =? Z.of_nat len - 1)%Z;
    destruct ((10 <=? countWords sentence) && (countWords sentence <=? 30)); lia.
Qed.

(** C2, as stated, fails: a sentence in which the term [key] occurs twice
    gains 2 from it, not 4. *)
Lemma score_per_occurrence_counterexample :
  occurrences (toLowerCase Sample.twiceKey) (str "key") = 2 /\
  score (scoreSentence 10 5 Sample.twiceKey) = 2%Z /\
  score (scoreSentence 10 5 Sample.twiceKey) <> scorePerOccurrence 10 5 Sample.twiceKey.
Proof. vm_compute. repeat split. discriminate. Qed.

Lemma index_scoreAll ss : index <$> scoreAll ss = seq 0 (length ss).
Proof.
  unfold scoreAll. rewrite fmap_imap.
  rewrite (imap_ext _ (fun j _ => j)) by reflexivity.
  rewrite (imap_seq_0 ss (fun j => j)). apply list_fmap_id.
Qed.

Lemma scoreAll_itemOf ss : Forall (itemOf ss 0) (scoreAll ss).
Proof.
  apply Forall_forall. intros it Hit.
  apply elem_of_lookup_imap in Hit as (i & y & -> & Hy).
  split; simpl; [lia|]. now rewrite Nat.sub_0_r.
Qed.

Lemma topItems_Permutation ss :
  Permutation (topItems ss)
    (take (Z.to_nat (selectionCount (length ss)))
       (sortBy (fun a b => (score b - score a)%Z) (scoreAll ss))).
Proof. apply sortBy_Permutation. Qed.

Lemma topItems_itemOf ss : Forall (itemOf ss 0) (topItems ss).
Proof.
  rewrite topItems_Permutation. apply Forall_take.
  rewrite sortBy_Permutation. apply scoreAll_itemOf.
Qed.

Lemma topItems_strictly_sorted ss :
  StronglySorted (fun a b => index a < index b) (topItems ss).
Proof.
  apply (sortBy_key_strictly_sorted index).
  rewrite fmap_take. eapply sublist_NoDup; [|apply sublist_take].
  rewrite sortBy_Permutation, index_scoreAll. apply NoDup_seq.
Qed.

(** Items with increasing indices, read off a list, form a subsequence of it. *)
Lemma increasing_items_sublist ss : forall off items,
  StronglySorted (fun a b => index a < index b) items ->
  Forall (itemOf ss off) items ->
  sublist (map sentence items) ss.
Proof.
  induction ss as [|a ss IH]; intros off items SS F.
  - destruct items as [|it items]; [constructor|].
    apply Forall_cons in F as [[_ H] _]. discriminate.
  - destruct items as [|it items]; [apply sublist_nil_l|].
    pose proof F as F'.
    apply Forall_cons in F' as [[Hoff Hit] Hrest].
    apply StronglySorted_inv in SS as [SS Hlt].
    destruct (decide (index it = off)) as [E|NE].
    + rewrite E, Nat.sub_diag in Hit. simpl in Hit. injection Hit as ->.
      simpl. apply sublist_skip. apply (IH (S off)); [exact SS|].
      apply Forall_forall. intros e He.
      rewrite Forall_forall in Hlt, Hrest.
      specialize (Hlt e He). destruct (Hrest e He) as [_ Hl].
      split; [lia|].
      replace (index e - off) with (S (index e - S off)) in Hl by lia.
      exact Hl.
    + apply sublist_cons. apply (IH (S off)); [now constructor|].
      apply Forall_forall. intros e He.
      rewrite Forall_forall in F. destruct (F e He) as [Hge Hl].
      assert (off < index e).
      { apply elem_of_cons in He as [->|He]; [lia|].
        rewrite Forall_forall in Hlt. specialize (Hlt e He). lia. }
      split; [lia|].
      replace (index e - off) with (S (index e - S off)) in Hl by lia.
      exact Hl.
Qed.

(** C6: the selected sentences are in document order.  The indices of the
    selected items increase strictly, each item holds the sentence of the
    document at its index, and so the selection is a subsequence of the
    document's sentences, whatever the scores are; the summary is the
    selection joined with single spaces. *)
Theorem summary_preserves_document_order doc :
  let ss := sentences doc in
  StronglySorted (fun a b => index a < index b) (topItems ss) /\
  Forall (fun it => ss !! index it = Some (sentence it)) (topItems ss) /\
  sublist (topSentences ss) ss /\
  Reasoning.summary (runReasoningAgent doc) = join (topSentences ss).
Proof.
  intros ss. split; [apply topItems_strictly_sorted|]. split; [|split].
  - eapply Forall_impl; [apply topItems_itemOf|].
    intros it [_ H]. now rewrite Nat.sub_0_r in H.
  - apply (increasing_items_sublist ss 0);
      [apply topItems_strictly_sorted | apply topItems_itemOf].
  - reflexivity.
Qed.

Lemma length_topSentences ss :
  Z.of_nat (length (topSentences ss)) =
  Z.min (Z.of_nat (length ss)) (selectionCount (length ss)).
Proof.
  unfold topSentences, topItems.
  rewrite length_map, length_sortBy, length_take, length_sortBy.
  unfold scoreAll. rewrite length_imap.
  assert (3 <= selectionCount (length ss))%Z by (unfold selectionCount; lia).
  lia.
Qed.

(** C5: with N sentences the agent selects min(N, max(3, ceil(N * 0.3)))
    of them and reports that number as [keyPoints]; without sentences the
    summary is the empty string and [keyPoints] is 0. *)
Theorem extract_selection_count doc :
  let N := length (sentences doc) in
  let r := runReasoningAgent doc in
  Z.of_nat (length (topSentences (sentences doc))) =
    Z.min (Z.of_nat N) (Z.max 3 (Num.ceil (Num.ofNat N * (3 # 10)))) /\
  Reasoning.keyPoints r = length (topSentences (sentences doc)) /\
  (N = 0 -> Reasoning.summary r = [] /\ Reasoning.keyPoints r = 0).
Proof.
  intros N r. split; [apply length_topSentences|]. split; [reflexivity|].
  intros H. subst N r. destruct (sentences doc) eqn:E; [|discriminate].
  unfold runReasoningAgent. rewrite E. split; reflexivity.
Qed.

Lemma extract_selection_count_witness :
  Reasoning.summary (runReasoningAgent Sample.emptyDoc) = [] /\
  Reasoning.keyPoints (runReasoningAgent Sample.emptyDoc) = 0.
Proof.
  apply (proj2 (proj2 (extract_selection_count Sample.emptyDoc))).
  reflexivity.
Defined.

(** ** The verification agent *)

Lemma matched_le_significant originalLower summary :
  length (matchedWords originalLower summary) <= length (significantWords summary).
Proof. apply filter_length_le. Qed.

Lemma rawCoverage_range doc r : (0 <= rawCoverage doc r <= 1)%Q.
Proof.
  unfold rawCoverage.
  set (m := length (matchedWords _ _)).
  set (n := length (significantWords _)).
  assert (Hmn : m <= n) by apply matched_le_significant.
  destruct (Nat.ltb_spec 0 n) as [Hn|Hn].
  - split.
    + apply Qle_shift_div_l; [now apply ofNat_pos|].
      rewrite Qmult_0_l. apply ofNat_nonneg.
    + apply Qle_shift_div_r; [now apply ofNat_pos|].
      rewrite Qmult_1_l. unfold Num.ofNat. rewrite <- Zle_Qle. lia.
  - split; [apply Qle_refl | discriminate].
Qed.

(** The raw coverage is above 0.7 when ten times the matched words
    exceed seven times the significant ones. *)
Lemma rawCoverage_gt_counts doc r :
  let originalLower := toLowerCase (normalized doc) in
  let M := length (matchedWords originalLower (Reasoning.summary r)) in
  let S := length (significantWords (Reasoning.summary r)) in
  ((7 # 10) < rawCoverage doc r)%Q <-> 7 * S < 10 * M.
Proof.
  intros originalLower M S. unfold rawCoverage. fold originalLower M S.
  assert (Hmn : M <= S) by apply matched_le_significant.
  destruct S as [|n]; simpl.
  - split; [discriminate | lia].
  - unfold Qlt, Qdiv, Qinv, Num.ofNat. simpl. lia.
Qed.

(** C4: the reported coverage is a percentage between 0 and 100, and
    [verified] holds exactly when the raw coverage fraction is strictly
    above 0.7, that is, when ten times the matched words exceed seven
    times the significant ones; at a raw coverage of exactly 0.7 the
    result is not verified. *)
Theorem verification_coverage_and_verified doc r :
  let v := runVerificationAgent doc r in
  let M := length (matchedWords (toLowerCase (normalized doc)) (Reasoning.summary r)) in
  let S := length (significantWords (Reasoning.summary r)) in
  (0 <= Verification.coverage v <= 100)%Z /\
  (Verification.verified v = true <-> ((7 # 10) < rawCoverage doc r)%Q) /\
  (Verification.verified v = true <-> 7 * S < 10 * M) /\
  (rawCoverage doc r == 7 # 10 -> Verification.verified v = false).
Proof.
  intros v M S. subst v. unfold runVerificationAgent; simpl.
  split; [apply round_percent_range, rawCoverage_range|].
  assert (Hv : Num.gtb (rawCoverage doc r) (7 # 10) = true <->
               ((7 # 10) < rawCoverage doc r)%Q) by apply ltb_Qlt.
  split; [exact Hv|]. split.
  - rewrite Hv. apply rawCoverage_gt_counts.
  - intros E. destruct (Num.gtb _ _) eqn:G; [|reflexivity].
    exfalso. apply (Qlt_irrefl (7 # 10)). rewrite <- E at 2. now apply Hv.
Qed.

Lemma verification_coverage_and_verified_witness :
  Verification.verified
    (runVerificationAgent Sample.boundaryDoc Sample.boundaryReasoning) = false.
Proof.
  apply (proj2 (proj2 (proj2 (verification_coverage_and_verified
           Sample.boundaryDoc Sample.boundaryReasoning)))).
  reflexivity.
Defined.


(** On a record whose summary is not extracted from its document the raw
    coverage can be exactly 0.7 (ten significant words, seven of them
    found in the source): the result is then not verified and carries no
    issue.  No call of the pipeline passes such a record. *)
Lemma verification_boundary_record :
  let v := runVerificationAgent Sample.boundaryDoc Sample.boundaryReasoning in
  rawCoverage Sample.boundaryDoc Sample.boundaryReasoning == 7 # 10 /\
  Verification.verified v = false /\
  Verification.issues v = [].
Proof. vm_compute. repeat split. Qed.

(** Without significant words the coverage is 0: no division by zero. *)
Lemma verification_no_significant_words doc r :
  significantWords (Reasoning.summary r) = [] ->
  rawCoverage doc r = 0%Q /\
  Verification.coverage (runVerificationAgent doc r) = 0%Z.
Proof.
  intros H. assert (E : rawCoverage doc r = 0%Q).
  { unfold rawCoverage. now rewrite H. }
  split; [exact E|]. unfold runVerificationAgent; simpl. now rewrite E.
Qed.

(** ** The simplification agent *)

Lemma fold_replacements_absent (entries : list (jsstring * jsstring)) : forall s,
  forallb (fun entry => eqs (toLowerCase (fst entry)) (fst entry)) entries = true ->
  existsb (fun entry => includes (toLowerCase s) (fst entry)) entries = false ->
  fold_left
    (fun simplified entry => replaceAllCI (fst entry) (snd entry) simplified)
    entries s = s.
Proof.
  induction entries as [|e entries IH]; intros s L H; [reflexivity|].
  simpl in L, H. apply andb_true_iff in L as [Le L].
  apply orb_false_iff in H as [He H]. simpl.
  apply eqs_eq in Le as E.
  unfold replaceAllCI at 2. rewrite replaceGo_absent by now rewrite E.
  now apply IH.
Qed.

Lemma applyReplacements_absent s :
  containsMappedTerm s = false -> applyReplacements s = s.
Proof. intros H. now apply fold_replacements_absent. Qed.

(** C7: on a summary that contains none of the ten replaced terms, in any
    letter case, the simplifier returns the summary as it is; so
    simplifying its output once more changes nothing. *)
Theorem simplify_unchanged_without_mapped_terms doc r :
  containsMappedTerm (Reasoning.summary r) = false ->
  let s := runSimplificationAgent doc r in
  let again :=
    runSimplificationAgent doc
      {| Reasoning.summary := Simplification.summary s;
         Reasoning.confidence := Reasoning.confidence r;
         Reasoning.keyPoints := Reasoning.keyPoints r |} in
  Simplification.summary s = Reasoning.summary r /\
  Simplification.summary again = Simplification.summary s.
Proof.
  intros H s again. subst s again.
  cbn [runSimplificationAgent Simplification.summary Reasoning.summary].
  rewrite (applyReplacements_absent _ H). split; [reflexivity|].
  apply (applyReplacements_absent _ H).
Qed.

Lemma simplify_unchanged_without_mapped_terms_witness :
  Simplification.summary
    (runSimplificationAgent Sample.emptyDoc Sample.plainReasoning)
  = Reasoning.summary Sample.plainReasoning.
Proof.
  apply (proj1 (simplify_unchanged_without_mapped_terms Sample.emptyDoc
                  Sample.plainReasoning eq_refl)).
Defined.

(** ** The critique agent *)

(** Whatever the summary is, a source without words gives a compression
    ratio that is not a finite number. *)
Lemma critique_zero_words doc r :
  countWords (normalized doc) = 0 ->
  Num.isFinite (Critique.compressionRatio (runCritiqueAgent doc r)) = false.
Proof.
  intros H. unfold runCritiqueAgent; simpl. rewrite H.
  now destruct (countWords (Reasoning.summary r)).
Qed.

(** C9: for a source without words, and the empty summary extracted from
    it, the compression ratio is [1 - 0 / 0], which is [NaN]: not a
    number, where a defined value such as 0 is asked for. *)
Theorem critique_zero_words_nan :
  countWords (normalized Sample.emptyDoc) = 0 /\
  Critique.compressionRatio
    (runCritiqueAgent Sample.emptyDoc (runReasoningAgent Sample.emptyDoc)) = Num.NaN.
Proof. split; reflexivity. Qed.

Lemma issueMissing_not_compression missed :
  issueMissing missed <> issueOverCompressed /\
  issueMissing missed <> issueMoreConcise.
Proof. split; discriminate. Qed.

(** C10: the critique reports at most two issues, never both compression
    issues, and the quality is "Needs improvement" exactly when there are
    two issues. *)
Theorem critique_at_most_two_issues doc r :
  let c := runCritiqueAgent doc r in
  length (Critique.issues c) <= 2 /\
  ~ (In issueOverCompressed (Critique.issues c) /\
     In issueMoreConcise (Critique.issues c)) /\
  (Critique.quality c = NeedsImprovement <-> length (Critique.issues c) = 2).
Proof.
  intros c. subst c. unfold runCritiqueAgent.
  set (ratio := Num.oneMinus _).
  set (missed := List.filter _ _).
  pose proof (compression_thresholds_disjoint ratio) as D.
  pose proof (issueMissing_not_compression missed) as [N1 N2].
  cbn [Critique.issues Critique.quality].
  destruct (Num.jgtb ratio (9 # 10)); [rewrite D by reflexivity|];
    destruct (Num.jltb ratio (3 # 10)); destruct (3 <? length missed);
    cbn [app length Nat.eqb Nat.ltb Nat.leb In];
    (split; [lia|]);
    (split; [|split; [discriminate + reflexivity | discriminate + reflexivity]]);
    intros [H1 H2]; repeat (destruct H1 as [H1|H1]); repeat (destruct H2 as [H2|H2]);
    try contradiction; try discriminate; congruence.
Qed.

Lemma critique_at_most_two_issues_witness :
  Critique.quality
    (runCritiqueAgent Sample.repetitiveDoc Sample.tinyReasoning) = NeedsImprovement.
Proof.
  apply (proj2 (proj2 (proj2 (critique_at_most_two_issues
           Sample.repetitiveDoc Sample.tinyReasoning)))).
  reflexivity.
Defined.

(** ** The output refiner *)

Lemma polish_terminal s : endsWithTerminal (polish s) = true.
Proof.
  unfold polish, endsWithTerminal.
  set (t := toUpperCase _ ++ _).
  destruct (endsWith t (str ".")) eqn:E1; cbn [negb andb].
  { now rewrite E1. }
  destruct (endsWith t (str "!")) eqn:E2; cbn [negb andb].
  { now rewrite E1, E2. }
  destruct (endsWith t (str "?")) eqn:E3; cbn [negb andb].
  { now rewrite E1, E2, E3. }
  change (str ".") with ["."%char]. now rewrite endsWith_snoc.
Qed.

(** C1, as amended: for every base text, empty or not, the refined
    summary ends in one of [.], [!], [?]; for the empty base text it is
    the string ".", the final period being appended to the empty string
    as well. *)
Theorem refineSummary_terminal_punctuation r v s c :
  endsWithTerminal (refineSummary r v s c) = true /\
  (baseText r v s = [] -> refineSummary r v s c = str ".").
Proof.
  split.
  - apply polish_terminal.
  - intros H. unfold refineSummary. now rewrite H.
Qed.

Lemma refineSummary_terminal_punctuation_witness :
  refineSummary Sample.emptyReasoning Sample.emptyVerification
    Sample.emptySimplification Sample.emptyCritique = str ".".
Proof.
  apply (proj2 (refineSummary_terminal_punctuation Sample.emptyReasoning
    Sample.emptyVerification Sample.emptySimplification Sample.emptyCritique)).
  reflexivity.
Defined.

(** C1, as stated, fails: the empty base text is not returned unchanged. *)
Lemma refineSummary_empty_counterexample :
  baseText Sample.emptyReasoning Sample.emptyVerification
    Sample.emptySimplification = [] /\
  refineSummary Sample.emptyReasoning Sample.emptyVerification
    Sample.emptySimplification Sample.emptyCritique <> [].
Proof. split; [reflexivity | vm_compute; discriminate]. Qed.

(** C8: the refiner starts from the simplified summary when the
    verification passed and from the raw summary of the reasoning agent
    otherwise, and the critique has no influence on what it returns. *)
Theorem refineSummary_ignores_critique r v s c c' :
  refineSummary r v s c =
    polish (if Verification.verified v then Simplification.summary s
            else Reasoning.summary r) /\
  refineSummary r v s c = refineSummary r v s c'.
Proof. split; reflexivity. Qed.

(** * Further properties *)

(** ** Words and word counts *)

Lemma splitWs_cons_exists s : exists h t, splitWs s = h :: t.
Proof.
  induction s as [|c s (h & t & E)]; simpl; [now eexists _, _|].
  destruct (isSpace c).
  - destruct s as [|d s]; [now eexists _, _|].
    destruct (isSpace d); [now exists h, t | now eexists _, _].
  - rewrite E. now eexists _, _.
Qed.

Lemma splitWs_space c s :
  isSpace c = true ->
  splitWs (c :: s) =
  match s with
  | d :: _ => if isSpace d then splitWs s else [] :: splitWs s
  | [] => [] :: splitWs s
  end.
Proof. intros Hc. destruct s; simpl; rewrite Hc; reflexivity. Qed.

Lemma splitWs_space_head c s :
  isSpace c = true -> exists t, splitWs (c :: s) = [] :: t.
Proof.
  revert c. induction s as [|d s IH]; intros c Hc; rewrite splitWs_space by assumption.
  - now eexists.
  - destruct (isSpace d) eqn:Hd; [|now eexists].
    apply (IH d Hd).
Qed.

Lemma splitWs_nonspace c s :
  isSpace c = false ->
  splitWs (c :: s) = (c :: hd [] (splitWs s)) :: tl (splitWs s).
Proof.
  intros Hc. cbn [splitWs]. rewrite Hc.
  now destruct (splitWs_cons_exists s) as (h & t & ->).
Qed.

Lemma words_space c s : isSpace c = true -> words (c :: s) = words s.
Proof.
  intros Hc. unfold words. rewrite splitWs_space by assumption.
  destruct s as [|d s]; [reflexivity|].
  now destruct (isSpace d).
Qed.

Lemma words_nonspace c s :
  isSpace c = false ->
  words (c :: s) =
  (c :: hd [] (splitWs s)) :: List.filter (fun w => 0 <? length w) (tl (splitWs s)).
Proof. intros Hc. unfold words. now rewrite splitWs_nonspace. Qed.

(** The first piece and the later words of a text that goes on, after a
    character of white space, with another text. *)
Lemma splitWs_app_space a c b :
  isSpace c = true ->
  hd [] (splitWs (a ++ c :: b)) = hd [] (splitWs a) /\
  List.filter (fun w => 0 <? length w) (tl (splitWs (a ++ c :: b))) =
    List.filter (fun w => 0 <? length w) (tl (splitWs a)) ++ words b.
Proof.
  intros Hc. induction a as [|x a [IHh IHt]].
  - destruct (splitWs_space_head c b Hc) as [t E].
    cbn [app]. rewrite E. split; [reflexivity|].
    cbn [tl splitWs List.filter app].
    change (List.filter (fun w => 0 <? length w) t) with
      (List.filter (fun w : jsstring => 0 <? length w) ([] :: t)).
    rewrite <- E. now apply words_space.
  - destruct (isSpace x) eqn:Hx.
    + cbn [app]. destruct (splitWs_space_head x (a ++ c :: b) Hx) as [t E].
      destruct (splitWs_space_head x a Hx) as [t' E'].
      rewrite E, E'. split; [reflexivity|]. cbn [tl].
      assert (W : words (x :: a ++ c :: b) = words (x :: a) ++ words b).
      { rewrite !words_space by assumption.
        unfold words at 1 2.
        destruct (splitWs_cons_exists (a ++ c :: b)) as (h & u & Eh).
        destruct (splitWs_cons_exists a) as (h' & u' & Eh').
        rewrite Eh, Eh' in *. cbn [hd tl] in *. subst h'.
        cbn [List.filter]. destruct (0 <? length h); [|exact IHt].
        cbn [app]. now f_equal. }
      unfold words at 1 2 in W. now rewrite E, E' in W.
    + cbn [app]. rewrite !splitWs_nonspace by assumption. cbn [hd tl].
      split; [now rewrite IHh | exact IHt].
Qed.

Lemma words_app_space a c b :
  isSpace c = true -> words (a ++ c :: b) = words a ++ words b.
Proof.
  intros Hc. destruct (splitWs_app_space a c b Hc) as [Hh Ht].
  unfold words at 1 2.
  destruct (splitWs_cons_exists (a ++ c :: b)) as (h & u & Eh).
  destruct (splitWs_cons_exists a) as (h' & u' & Eh').
  rewrite Eh, Eh' in *. cbn [hd tl] in *. subst h'.
  cbn [List.filter]. destruct (0 <? length h); [|exact Ht].
  cbn [app]. now f_equal.
Qed.

Lemma words_nil : words [] = [].
Proof. reflexivity. Qed.

Lemma words_trimStart s : words (trimStart s) = words s.
Proof.
  unfold trimStart. induction s as [|c s IH]; [reflexivity|].
  cbn [dropWhile]. destruct (isSpace c) eqn:Hc; [|reflexivity].
  now rewrite IH, words_space.
Qed.

Lemma words_snoc_space s c : isSpace c = true -> words (s ++ [c]) = words s.
Proof. intros Hc. now rewrite words_app_space, words_nil, app_nil_r. Qed.

Lemma words_trimEnd s : words (trimEnd s) = words s.
Proof.
  unfold trimEnd. rewrite <- (rev_involutive s) at 2.
  induction (rev s) as [|c r IH]; [reflexivity|].
  cbn [dropWhile]. destruct (isSpace c) eqn:Hc; [|reflexivity].
  rewrite IH. cbn [rev]. now rewrite words_snoc_space.
Qed.

Lemma words_trim s : words (trim s) = words s.
Proof. unfold trim. now rewrite words_trimEnd, words_trimStart. Qed.

Lemma countWords_words s : countWords s = length (words s).
Proof.
  unfold countWords. rewrite <- (words_trim s). unfold words.
  now destruct (trim s).
Qed.

Lemma words_blank s : words s = [] <-> isBlank s = true.
Proof.
  induction s as [|c s IH]; [now split|].
  cbn [isBlank forallb]. destruct (isSpace c) eqn:Hc.
  - rewrite words_space by assumption. exact IH.
  - rewrite words_nonspace by assumption. split; discriminate.
Qed.

(** X1: [countWords] is 0 exactly on the texts that hold nothing but
    white space (the empty text among them). *)
Theorem countWords_zero_iff_blank s : countWords s = 0 <-> isBlank s = true.
Proof.
  rewrite countWords_words, <- words_blank.
  destruct (words s); [now split | split; discriminate].
Qed.

Lemma countWords_zero_iff_blank_witness : countWords (str "  ") = 0.
Proof.
  apply (proj2 (countWords_zero_iff_blank (str "  "))).
  reflexivity.
Defined.

Lemma words_join parts : words (join parts) = concat (map words parts).
Proof.
  induction parts as [|p parts IH]; [reflexivity|].
  destruct parts as [|q parts].
  - cbn [join map concat]. now rewrite app_nil_r.
  - change (join (p :: q :: parts)) with (p ++ " "%char :: join (q :: parts)).
    rewrite words_app_space by reflexivity. now rewrite IH.
Qed.

Lemma length_concat_words parts :
  length (concat (map words parts)) = total (map countWords parts).
Proof.
  induction parts as [|p parts IH]; [reflexivity|].
  cbn [map concat total fold_right]. rewrite length_app, countWords_words.
  f_equal. exact IH.
Qed.

(** X2: the words of texts joined with single spaces are the words of
    the texts, in their order, and so the word count of the join is the
    sum of their word counts. *)
Theorem countWords_join parts :
  words (join parts) = concat (map words parts) /\
  countWords (join parts) = total (map countWords parts).
Proof.
  split; [apply words_join|].
  rewrite countWords_words, words_join. apply length_concat_words.
Qed.

Lemma splitWs_collapseWs s : splitWs (collapseWs s) = splitWs s.
Proof.
  induction s as [|c s IH]; [reflexivity|].
  destruct (isSpace c) eqn:Hc.
  - rewrite (splitWs_space c s Hc). cbn [collapseWs]. rewrite Hc.
    destruct s as [|d s].
    + reflexivity.
    + destruct (isSpace d) eqn:Hd; [exact IH|].
      rewrite splitWs_space by reflexivity. rewrite IH.
      cbn [collapseWs]. rewrite Hd. cbn iota. now rewrite Hd.
  - cbn [collapseWs]. rewrite Hc. rewrite !splitWs_nonspace by assumption.
    now rewrite IH.
Qed.

(** X3: collapsing the white space of a text, or trimming it, leaves its
    words, and so its word count, as they are. *)
Theorem countWords_normalised s :
  words (collapseWs s) = words s /\
  words (trim s) = words s /\
  countWords (collapseWs s) = countWords s /\
  countWords (trim s) = countWords s.
Proof.
  assert (W : words (collapseWs s) = words s).
  { unfold words. now rewrite splitWs_collapseWs. }
  repeat split; [exact W | apply words_trim | |].
  - now rewrite !countWords_words, W.
  - now rewrite !countWords_words, words_trim.
Qed.

(** ** Occurrences *)

Lemma eqc_eq a b : eqc a b = true <-> a = b.
Proof. apply Ascii.eqb_eq. Qed.

Lemma startsWith_prefix s p : startsWith s p = true <-> exists b, s = p ++ b.
Proof.
  revert s. induction p as [|a p IH]; intros s.
  - rewrite startsWith_nil. split; [now exists s | reflexivity].
  - destruct s as [|c s]; simpl.
    + split; [discriminate | intros [b E]; discriminate].
    + rewrite andb_true_iff, eqc_eq, IH. split.
      * intros [-> [b ->]]. now exists b.
      * intros [b E]. injection E as -> ->. split; [reflexivity | now exists b].
Qed.

Lemma includes_infixOf s p : includes s p = true <-> infixOf p s.
Proof.
  unfold infixOf. induction s as [|c s IH]; cbn [includes].
  - rewrite orb_false_r, startsWith_prefix. split.
    + intros [b E]. now exists [], b.
    + intros (a & b & E). destruct a; [now exists b|discriminate].
  - rewrite orb_true_iff, startsWith_prefix, IH. split.
    + intros [[b E]|(a & b & E)]; [now exists [], b|].
      exists (c :: a), b. now rewrite E.
    + intros (a & b & E). destruct a as [|x a].
      * left. now exists b.
      * right. injection E as -> ->. now exists a, b.
Qed.

Lemma infixOf_trans p q s : infixOf p q -> infixOf q s -> infixOf p s.
Proof.
  intros (a & b & ->) (a' & b' & ->). exists (a' ++ a), (b ++ b').
  now rewrite <- !app_assoc.
Qed.

Lemma infixOf_lower p s : infixOf p s -> infixOf (toLowerCase p) (toLowerCase s).
Proof.
  intros (a & b & ->). exists (toLowerCase a), (toLowerCase b).
  unfold toLowerCase. now rewrite !map_app.
Qed.

(** The first piece of a text is its beginning, and every piece occurs
    in it. *)
Lemma splitWs_pieces s :
  (exists b, s = hd [] (splitWs s) ++ b) /\
  Forall (fun w => infixOf w s) (splitWs s).
Proof.
  induction s as [|c s [[b Hb] IH]].
  - split; [now exists [] | repeat constructor; now exists [], []].
  - assert (Hs : Forall (fun w => infixOf w (c :: s)) (splitWs s)).
    { eapply Forall_impl; [exact IH|]. intros w (a & b' & ->).
      now exists (c :: a), b'. }
    destruct (isSpace c) eqn:Hc.
    + destruct (splitWs_space_head c s Hc) as [t E].
      split; [rewrite E; now exists (c :: s)|].
      rewrite splitWs_space by assumption.
      assert (N : infixOf [] (c :: s)) by now exists [], (c :: s).
      destruct s as [|d s]; [now constructor|].
      destruct (isSpace d); [exact Hs | now constructor].
    + rewrite splitWs_nonspace by assumption. cbn [hd]. split.
      * exists b. cbn [app]. now rewrite <- Hb.
      * constructor.
        -- exists [], b. cbn [app]. now rewrite <- Hb.
        -- destruct (splitWs s); [constructor|].
           now apply Forall_cons in Hs as [_ Hs].
Qed.

Lemma words_infixOf s : Forall (fun w => infixOf w s) (words s).
Proof.
  unfold words. apply Forall_forall. intros w Hw.
  apply list_elem_of_In, filter_In in Hw as [Hw _].
  destruct (splitWs_pieces s) as [_ F]. rewrite Forall_forall in F.
  now apply F, list_elem_of_In.
Qed.

(** ** More on the verification agent *)

Lemma isSpace_lower c : isSpace (toLowerChar c) = isSpace c.
Proof. destruct c as [[] [] [] [] [] [] [] []]; reflexivity. Qed.

Lemma toLowerCase_join parts :
  toLowerCase (join parts) = join (map toLowerCase parts).
Proof.
  induction parts as [|p parts IH]; [reflexivity|].
  destruct parts as [|q parts]; [reflexivity|].
  change (join (p :: q :: parts)) with (p ++ " "%char :: join (q :: parts)).
  unfold toLowerCase at 1. rewrite map_app. cbn [map].
  fold (toLowerCase p) (toLowerCase (join (q :: parts))). now rewrite IH.
Qed.

Lemma significantWords_words summary :
  significantWords summary =
  List.filter (fun w => 4 <? length w) (words (toLowerCase summary)).
Proof.
  unfold significantWords, words.
  induction (splitWs (toLowerCase summary)) as [|w l IH]; [reflexivity|].
  cbn [List.filter]. destruct (0 <? length w) eqn:E0.
  - cbn [List.filter]. now rewrite IH.
  - rewrite IH. apply Nat.ltb_ge in E0.
    destruct (Nat.ltb_spec 4 (length w)); [lia | reflexivity].
Qed.

Lemma filter_all {A} (f : A -> bool) (l : list A) :
  Forall (fun x => f x = true) l -> List.filter f l = l.
Proof.
  induction 1 as [|x l Hx _ IH]; [reflexivity|].
  cbn [List.filter]. now rewrite Hx, IH.
Qed.

Lemma topSentences_sublist ss : sublist (topSentences ss) ss.
Proof.
  apply (increasing_items_sublist ss 0);
    [apply topItems_strictly_sorted | apply topItems_itemOf].
Qed.

(** The words of the summary extracted from a document whose sentences
    come from its text all occur in the lower-cased text. *)
Lemma summary_words_in_source doc :
  sentencesFromText doc ->
  Forall (fun w => includes (toLowerCase (normalized doc)) w = true)
    (words (toLowerCase (Reasoning.summary (runReasoningAgent doc)))).
Proof.
  intros WF. cbn [runReasoningAgent Reasoning.summary].
  rewrite toLowerCase_join, words_join.
  apply Forall_forall. intros w Hw.
  apply list_elem_of_In, in_concat in Hw as (ws & Hws & Hw).
  apply in_map_iff in Hws as (lt & <- & Hlt).
  apply in_map_iff in Hlt as (t & <- & Ht).
  apply list_elem_of_In in Hw, Ht.
  apply includes_infixOf.
  apply infixOf_trans with (toLowerCase t).
  - pose proof (words_infixOf (toLowerCase t)) as F.
    rewrite Forall_forall in F. now apply F.
  - apply infixOf_lower.
    pose proof (topSentences_sublist (sentences doc)) as S.
    unfold sentencesFromText in WF. rewrite Forall_forall in WF.
    apply WF. eapply elem_of_sublist; [exact Ht | exact S].
Qed.

Lemma round_ge q (z : Z) : (inject_Z z <= q * 100)%Q -> (z <= Num.round (q * 100))%Z.
Proof.
  intros H. unfold Num.round. rewrite <- (Qfloor_Z z).
  apply Qfloor_resp_le. apply Qle_trans with (q * 100)%Q; [exact H|].
  rewrite <- (Qplus_0_r (q * 100)) at 1. apply Qplus_le_r. discriminate.
Qed.

Lemma round_le q (z : Z) : (q * 100 <= inject_Z z)%Q -> (Num.round (q * 100) <= z)%Z.
Proof.
  intros H. unfold Num.round.
  assert (E : z = Qfloor (inject_Z z + (1 # 2))).
  { unfold Qfloor, Qplus, inject_Z. simpl. Z.div_mod_to_equations. lia. }
  rewrite E. apply Qfloor_resp_le. now apply Qplus_le_l.
Qed.

(** X4: the confidence of a verification result is a fraction between 0
    and 1; a verified result carries no issue and reports a coverage of
    at least 70, and a result that carries an issue is not verified and
    reports a coverage of at most 70. *)
Theorem verification_consistent doc r :
  let v := runVerificationAgent doc r in
  (0 <= Verification.confidence v <= 1)%Q /\
  (Verification.verified v = true ->
   Verification.issues v = [] /\ (70 <= Verification.coverage v)%Z) /\
  (Verification.issues v <> [] ->
   Verification.verified v = false /\ (Verification.coverage v <= 70)%Z).
Proof.
  cbn [runVerificationAgent Verification.confidence Verification.verified
       Verification.issues Verification.coverage].
  split; [apply rawCoverage_range|].
  set (q := rawCoverage doc r). split.
  - intros V. apply ltb_Qlt in V. split.
    + destruct (Num.ltb q (7 # 10)) eqn:L; [|reflexivity].
      apply ltb_Qlt in L. exfalso. apply (Qlt_irrefl q).
      now apply Qlt_trans with (7 # 10).
    + apply round_ge. apply Qlt_le_weak.
      apply (Qmult_lt_compat_r _ _ 100) in V; [|reflexivity].
      apply Qle_lt_trans with ((7 # 10) * 100)%Q; [discriminate | exact V].
  - intros I. destruct (Num.ltb q (7 # 10)) eqn:L; [|congruence].
    apply ltb_Qlt in L. split.
    + destruct (Num.gtb q (7 # 10)) eqn:G; [|reflexivity].
      apply ltb_Qlt in G. exfalso. apply (Qlt_irrefl q).
      now apply Qlt_trans with (7 # 10).
    + apply round_le. apply Qlt_le_weak.
      apply (Qmult_lt_compat_r _ _ 100) in L; [|reflexivity].
      apply Qlt_le_trans with ((7 # 10) * 100)%Q; [exact L | discriminate].
Qed.

Lemma verification_consistent_witness :
  Verification.issues
    (runVerificationAgent Example.harbourDoc Example.harbourReasoning) = [] /\
  (70 <= Verification.coverage
           (runVerificationAgent Example.harbourDoc Example.harbourReasoning))%Z.
Proof.
  apply (proj1 (proj2 (verification_consistent Example.harbourDoc
                         Example.harbourReasoning))).
  reflexivity.
Defined.

Lemma ofNat_div_self n : 0 < n -> (Num.ofNat n / Num.ofNat n == 1)%Q.
Proof.
  intros H. apply Qmult_inv_r. intros E.
  apply (Qlt_irrefl 0). rewrite <- E at 2. now apply ofNat_pos.
Qed.

(** All significant words of an extracted summary are matched. *)
Lemma extracted_summary_matched doc :
  sentencesFromText doc ->
  matchedWords (toLowerCase (normalized doc))
    (Reasoning.summary (runReasoningAgent doc)) =
  significantWords (Reasoning.summary (runReasoningAgent doc)).
Proof.
  intros WF. unfold matchedWords. apply filter_all.
  rewrite significantWords_words. apply Forall_forall. intros w Hw.
  apply list_elem_of_In, filter_In in Hw as [Hw _].
  pose proof (summary_words_in_source doc WF) as F.
  rewrite Forall_forall in F. now apply F, list_elem_of_In.
Qed.

(** The verification of a summary all of whose significant words are
    matched. *)
Lemma verification_all_matched doc r :
  matchedWords (toLowerCase (normalized doc)) (Reasoning.summary r) =
    significantWords (Reasoning.summary r) ->
  let v := runVerificationAgent doc r in
  (significantWords (Reasoning.summary r) <> [] ->
   Verification.verified v = true /\ Verification.coverage v = 100%Z /\
   Verification.issues v = []) /\
  (significantWords (Reasoning.summary r) = [] ->
   Verification.verified v = false /\ Verification.coverage v = 0%Z /\
   Verification.issues v = [issueNotFromSource]).
Proof.
  intros M v. subst v. unfold runVerificationAgent, rawCoverage. rewrite M.
  cbn [Verification.verified Verification.coverage Verification.issues].
  destruct (significantWords (Reasoning.summary r)) as [|w ws] eqn:E.
  - split; [congruence|]. intros _. repeat split.
  - split; [|discriminate]. intros _.
    set (n := length (w :: ws)). assert (Hn : 0 < n) by (subst n; simpl; lia).
    destruct (Nat.ltb_spec 0 n) as [_|]; [|lia].
    pose proof (ofNat_div_self n Hn) as Q1.
    assert (G : Num.gtb (Num.ofNat n / Num.ofNat n) (7 # 10) = true).
    { apply ltb_Qlt. rewrite Q1. reflexivity. }
    assert (L : Num.ltb (Num.ofNat n / Num.ofNat n) (7 # 10) = false).
    { destruct (Num.ltb _ _) eqn:L; [|reflexivity].
      apply ltb_Qlt in L. rewrite Q1 in L. discriminate. }
    rewrite G, L. repeat split.
    unfold Num.round. rewrite Q1. reflexivity.
Qed.

(** X5: for a document whose sentences occur in its normalized text, and
    the summary that the reasoning agent extracts from it, every
    significant word of the summary is found in the source.  So the
    verification depends only on whether the summary has a word of more
    than four characters: with one, the result is verified, with a
    coverage of 100 and no issue; without, it is not verified, with a
    coverage of 0 and the issue. *)
Theorem extracted_summary_verification doc :
  sentencesFromText doc ->
  let r := runReasoningAgent doc in
  let v := runVerificationAgent doc r in
  matchedWords (toLowerCase (normalized doc)) (Reasoning.summary r) =
    significantWords (Reasoning.summary r) /\
  (significantWords (Reasoning.summary r) <> [] ->
   Verification.verified v = true /\ Verification.coverage v = 100%Z /\
   Verification.issues v = []) /\
  (significantWords (Reasoning.summary r) = [] ->
   Verification.verified v = false /\ Verification.coverage v = 0%Z /\
   Verification.issues v = [issueNotFromSource]).
Proof.
  intros WF r v. pose proof (extracted_summary_matched doc WF) as M.
  split; [exact M|]. exact (verification_all_matched doc r M).
Qed.

Lemma extracted_summary_verification_witness :
  Verification.verified
    (runVerificationAgent Example.harbourDoc
       (runReasoningAgent Example.harbourDoc)) = true.
Proof.
  apply (proj1 (proj2 (extracted_summary_verification Example.harbourDoc
           ltac:(repeat constructor; apply includes_infixOf; reflexivity)))).
  vm_compute. discriminate.
Defined.

(** ** More on the reasoning agent *)

(** X6: the score of a sentence lies between 0 and 30; it is at least 3
    for the first two sentences and at most 27 for the later ones. *)
Theorem score_bounds len index sentence :
  let s := score (scoreSentence len index sentence) in
  (0 <= s <= 30)%Z /\
  (index < 2 -> (3 <= s)%Z) /\
  (2 <= index -> (s <= 27)%Z).
Proof.
  cbn [scoreSentence score]. rewrite keywordWeight_indicatorsPresent.
  pose proof (indicatorsPresent_le_12 (toLowerCase sentence)).
  destruct (Nat.ltb_spec index 2);
    destruct (Z.of_nat index =? Z.of_nat len - 1)%Z;
    destruct ((10 <=? countWords sentence) && (countWords sentence <=? 30));
    repeat split; lia.
Qed.

Lemma score_bounds_witness :
  (3 <= score (scoreSentence 4 0 (str "The harbour opens at dawn every day.")))%Z.
Proof.
  apply (proj1 (proj2 (score_bounds 4 0 (str "The harbour opens at dawn every day.")))).
  lia.
Defined.

Lemma sublist_same_length {A} (l1 l2 : list A) :
  sublist l1 l2 -> length l2 <= length l1 -> l1 = l2.
Proof.
  induction 1 as [|x l1 l2 _ IH|x l1 l2 S _]; intros L; [reflexivity| |].
  - f_equal. apply IH. simpl in L. lia.
  - apply sublist_length in S. simpl in L. lia.
Qed.

(** X7: a document of at most three sentences is summarised by all its
    sentences, in their order. *)
Theorem short_document_kept_whole doc :
  length (sentences doc) <= 3 ->
  topSentences (sentences doc) = sentences doc /\
  Reasoning.summary (runReasoningAgent doc) = join (sentences doc) /\
  Reasoning.keyPoints (runReasoningAgent doc) = length (sentences doc).
Proof.
  intros H.
  assert (E : topSentences (sentences doc) = sentences doc).
  { apply sublist_same_length; [apply topSentences_sublist|].
    pose proof (length_topSentences (sentences doc)) as L.
    assert (3 <= selectionCount (length (sentences doc)))%Z
      by (unfold selectionCount; lia).
    lia. }
  cbn [runReasoningAgent Reasoning.summary Reasoning.keyPoints].
  now rewrite E.
Qed.

Lemma short_document_kept_whole_witness :
  topSentences (sentences Example.quayDoc) = sentences Example.quayDoc /\
  Reasoning.summary (runReasoningAgent Example.quayDoc)
    = join (sentences Example.quayDoc) /\
  Reasoning.keyPoints (runReasoningAgent Example.quayDoc) = 3.
Proof.
  apply (short_document_kept_whole Example.quayDoc).
  vm_compute. lia.
Defined.

(** The first sort is stable: on items in index order it ranks by score
    and, at equal scores, by index. *)
Lemma insertBy_ranks x l :
  StronglySorted ranksBefore l ->
  Forall (fun y => index x < index y) l ->
  StronglySorted ranksBefore (insertBy (fun a b => (score b - score a)%Z) x l).
Proof.
  induction 1 as [|y l Hl IH Hy]; intros Hx; simpl.
  - repeat constructor.
  - apply Forall_cons in Hx as [Hxy Hx].
    destruct (Z.leb_spec (score y - score x) 0) as [Hc|Hc].
    + constructor; [now constructor|].
      constructor; [unfold ranksBefore; lia|].
      rewrite Forall_forall in Hy, Hx |- *. intros z Hz.
      specialize (Hy z Hz). specialize (Hx z Hz). unfold ranksBefore in *. lia.
    + constructor; [now apply IH|].
      eapply Permutation_Forall; [symmetry; apply insertBy_Permutation|].
      constructor; [unfold ranksBefore; lia | exact Hy].
Qed.

Lemma sortBy_ranks l :
  StronglySorted (fun a b => index a < index b) l ->
  StronglySorted ranksBefore (sortBy (fun a b => (score b - score a)%Z) l).
Proof.
  induction 1 as [|x l Hl IH Hx]; simpl; [constructor|].
  apply insertBy_ranks; [exact IH|].
  eapply Permutation_Forall; [symmetry; apply sortBy_Permutation | exact Hx].
Qed.

Lemma scoreAll_index_sorted ss :
  StronglySorted (fun a b => index a < index b) (scoreAll ss).
Proof.
  assert (G : forall l : list ScoredSentence,
             StronglySorted lt (index <$> l) ->
             StronglySorted (fun a b => index a < index b) l).
  { induction l as [|x l IH]; intros H; [constructor|].
    rewrite fmap_cons in H. apply StronglySorted_inv in H as [H F].
    constructor; [now apply IH|].
    rewrite Forall_forall in F. apply Forall_forall. intros y Hy.
    apply F. now apply list_elem_of_fmap_2. }
  apply G. rewrite index_scoreAll.
  generalize 0. induction (length ss) as [|n IH]; intros k; [constructor|].
  cbn [seq]. constructor; [apply IH|].
  apply Forall_forall. intros j Hj. apply elem_of_seq in Hj. lia.
Qed.

Lemma StronglySorted_app_rel {A} (R : A -> A -> Prop) (l1 l2 : list A) :
  StronglySorted R (l1 ++ l2) ->
  forall a b, a ∈ l1 -> b ∈ l2 -> R a b.
Proof.
  induction l1 as [|x l1 IH]; intros H a b Ha Hb; [now apply elem_of_nil in Ha|].
  cbn [app] in H. apply StronglySorted_inv in H as [H F].
  apply elem_of_cons in Ha as [->|Ha]; [|now apply IH].
  rewrite Forall_forall in F. apply F. apply elem_of_app. now right.
Qed.

(** X8: the selection goes by score, with ties going to the earlier
    sentence: every scored sentence that is left out ranks after every
    selected one, having a lower score, or the same score and a higher
    index. *)
Theorem selection_by_rank ss a b :
  a ∈ topItems ss ->
  b ∈ scoreAll ss ->
  b ∉ topItems ss ->
  ranksBefore a b.
Proof.
  intros Ha Hb Hnb.
  set (sorted := sortBy (fun a b => (score b - score a)%Z) (scoreAll ss)).
  set (k := Z.to_nat (selectionCount (length ss))).
  assert (P : Permutation (topItems ss) (take k sorted)) by apply topItems_Permutation.
  assert (SS : StronglySorted ranksBefore (take k sorted ++ drop k sorted)).
  { rewrite take_drop. apply sortBy_ranks, scoreAll_index_sorted. }
  apply (StronglySorted_app_rel _ _ _ SS).
  - now rewrite <- P.
  - assert (Hs : b ∈ take k sorted ++ drop k sorted).
    { rewrite take_drop. unfold sorted. now rewrite sortBy_Permutation. }
    apply elem_of_app in Hs as [Hs|Hs]; [|exact Hs].
    exfalso. apply Hnb. now rewrite P.
Qed.

Lemma selection_by_rank_witness :
  ranksBefore
    (scoreSentence 4 3 (str "The market closes when the catch is sold."))
    (scoreSentence 4 2 (str "Nets are mended on the quay.")).
Proof.
  apply (selection_by_rank Example.fourSentences).
  - vm_compute. repeat constructor.
  - vm_compute. repeat constructor.
  - vm_compute. intros H.
    repeat (apply elem_of_cons in H as [H|H]; [discriminate H|]).
    now apply elem_of_nil in H.
Defined.

(** ** More on the simplification agent *)

Lemma upper_lower_char c : toUpperChar (toLowerChar c) = toUpperChar c.
Proof. destruct c as [[] [] [] [] [] [] [] []]; reflexivity. Qed.

Lemma startsWith_lower_matchCI pat : forall s,
  startsWith (toLowerCase s) (toLowerCase pat) = true -> matchCI pat s = true.
Proof.
  induction pat as [|a pat IH]; intros s H; [reflexivity|].
  destruct s as [|b s]; [discriminate|].
  simpl in H. apply andb_true_iff in H as [Hc Hm]. apply eqc_eq in Hc.
  simpl. rewrite (IH _ Hm), andb_true_r. apply eqc_eq. unfold canonicalize.
  now rewrite <- (upper_lower_char a), Hc, upper_lower_char.
Qed.

Lemma matchCI_length pat : forall s, matchCI pat s = true -> length pat <= length s.
Proof.
  induction pat as [|a pat IH]; intros s H; simpl; [lia|].
  destruct s as [|b s]; [discriminate|].
  simpl in H. apply andb_true_iff in H as [_ H]. apply IH in H. simpl. lia.
Qed.

Lemma length_replaceGo pat rep :
  length rep <= length pat ->
  forall s k, length (replaceGo pat rep k s) <= length s - k.
Proof.
  intros Hr. induction s as [|c s IH]; intros k; [simpl; lia|].
  cbn [replaceGo]. destruct k as [|k].
  - destruct (matchCI pat (c :: s)) eqn:M.
    + apply matchCI_length in M. rewrite length_app.
      specialize (IH (length pat - 1)). simpl in *. lia.
    + specialize (IH 0). simpl in *. lia.
  - specialize (IH k). simpl. lia.
Qed.

Lemma length_replaceGo_present pat rep :
  length rep < length pat ->
  forall s, includes (toLowerCase s) (toLowerCase pat) = true ->
  length (replaceGo pat rep 0 s) < length s.
Proof.
  intros Hr. induction s as [|c s IH]; intros H.
  - cbn [toLowerCase map includes] in H. rewrite orb_false_r in H.
    apply (startsWith_lower_matchCI pat []), matchCI_length in H. simpl in H. lia.
  - cbn [replaceGo]. destruct (matchCI pat (c :: s)) eqn:M.
    + apply matchCI_length in M. rewrite length_app.
      pose proof (length_replaceGo pat rep (Nat.lt_le_incl _ _ Hr) s (length pat - 1)).
      simpl in *. lia.
    + change (toLowerCase (c :: s)) with (toLowerChar c :: toLowerCase s) in H.
      cbn [includes] in H. apply orb_true_iff in H as [H|H].
      * apply (startsWith_lower_matchCI pat (c :: s)) in H. congruence.
      * apply IH in H. simpl. lia.
Qed.

Lemma fold_replacements_length (entries : list (jsstring * jsstring)) :
  shortening entries = true ->
  forall s,
  let out :=
    fold_left
      (fun simplified entry => replaceAllCI (fst entry) (snd entry) simplified)
      entries s in
  length out <= length s /\
  (existsb (fun entry => includes (toLowerCase s) (fst entry)) entries = true ->
   length out < length s).
Proof.
  induction entries as [|e entries IH]; intros L s; cbn zeta.
  - split; [reflexivity | discriminate].
  - cbn [shortening forallb] in L.
    apply andb_true_iff in L as [Le L]. apply andb_true_iff in Le as [Le Hl].
    apply eqs_eq in Le. apply Nat.ltb_lt in Hl.
    change (toLowerCase e.1 = e.1) in Le. change (length e.2 < length e.1) in Hl.
    cbn [fold_left existsb]. unfold replaceAllCI at 2 4.
    destruct (IH L (replaceGo e.1 e.2 0 s)) as [IH1 IH2]. cbn zeta in IH1, IH2.
    pose proof (length_replaceGo e.1 e.2 (Nat.lt_le_incl _ _ Hl) s 0) as G.
    rewrite Nat.sub_0_r in G.
    split; [eapply Nat.le_trans; [exact IH1 | exact G]|]. intros H.
    destruct (includes (toLowerCase s) e.1) eqn:I.
    + assert (I' : includes (toLowerCase s) (toLowerCase e.1) = true)
        by (rewrite Le; exact I).
      apply (length_replaceGo_present _ e.2 Hl) in I'.
      eapply Nat.le_lt_trans; [exact IH1 | exact I'].
    + assert (I' : includes (toLowerCase s) (toLowerCase e.1) = false)
        by (rewrite Le; exact I).
      rewrite (replaceGo_absent _ e.2 _ I') in *.
      cbn [orb] in H. exact (IH2 H).
Qed.

(** X9: the simplifier never lengthens the summary; it changes the
    summary exactly when the summary contains one of the replaced terms,
    in any letter case, and then the result is strictly shorter.  The
    readability counts as improved only when the summary was changed. *)
Theorem simplify_shortens doc r :
  let s := runSimplificationAgent doc r in
  length (Simplification.summary s) <= length (Reasoning.summary r) /\
  (containsMappedTerm (Reasoning.summary r) = true ->
   length (Simplification.summary s) < length (Reasoning.summary r)) /\
  (Simplification.summary s = Reasoning.summary r <->
   containsMappedTerm (Reasoning.summary r) = false) /\
  (Simplification.readabilityImproved s = true ->
   containsMappedTerm (Reasoning.summary r) = true).
Proof.
  cbn [runSimplificationAgent Simplification.summary
       Simplification.readabilityImproved].
  destruct (fold_replacements_length replacements eq_refl (Reasoning.summary r))
    as [L1 L2]. cbn zeta in L1, L2.
  fold (applyReplacements (Reasoning.summary r)) in L1, L2.
  fold (containsMappedTerm (Reasoning.summary r)) in L2.
  split; [exact L1|]. split; [exact L2|]. split; [split|].
  - intros E. destruct (containsMappedTerm (Reasoning.summary r)); [|reflexivity].
    specialize (L2 eq_refl). rewrite E in L2. lia.
  - apply applyReplacements_absent.
  - intros R. destruct (containsMappedTerm (Reasoning.summary r)) eqn:C; [reflexivity|].
    rewrite (applyReplacements_absent _ C) in R.
    unfold Num.ltb in R. apply Z.ltb_lt in R. lia.
Qed.

Lemma simplify_shortens_witness :
  length (Simplification.summary
            (runSimplificationAgent Sample.emptyDoc Example.wordyReasoning))
  < length (Reasoning.summary Example.wordyReasoning).
Proof.
  apply (proj1 (proj2 (simplify_shortens Sample.emptyDoc Example.wordyReasoning))).
  reflexivity.
Defined.

Lemma fold_left_lengths (l : list jsstring) : forall a,
  fold_left (fun sum word => sum + length word) l a = a + total (map length l).
Proof.
  induction l as [|w l IH]; intros a; cbn [fold_left map total fold_right]; [lia|].
  rewrite IH. unfold total. lia.
Qed.

Lemma words_nonempty s : Forall (fun w => 0 < length w) (words s).
Proof.
  unfold words. apply Forall_forall. intros w Hw.
  apply list_elem_of_In, filter_In in Hw as [_ Hw]. now apply Nat.ltb_lt in Hw.
Qed.

Lemma total_lengths_ge (l : list jsstring) :
  Forall (fun w => 0 < length w) l -> length l <= total (map length l).
Proof.
  induction 1 as [|w l Hw _ IH]; cbn [map total fold_right length]; [lia|].
  unfold total in IH. lia.
Qed.

(** X10: the average word length of a text without words is 0 (there is
    no division by zero), and that of any other text is at least 1. *)
Theorem averageWordLength_range text :
  (isBlank text = true -> averageWordLength text = 0%Q) /\
  (isBlank text = false -> (1 <= averageWordLength text)%Q).
Proof.
  unfold averageWordLength. fold (words text).
  pose proof (words_blank text) as B.
  pose proof (total_lengths_ge _ (words_nonempty text)) as T.
  destruct (words text) as [|w ws] eqn:E.
  - split; [reflexivity|]. intros H. destruct B as [B _].
    rewrite B in H by reflexivity. discriminate.
  - split.
    + intros H. apply B in H. discriminate.
    + intros _. rewrite fold_left_lengths. cbn [Nat.add].
      apply Qle_shift_div_l; [apply ofNat_pos; simpl; lia|].
      rewrite Qmult_1_l. unfold Num.ofNat. rewrite <- Zle_Qle.
      apply Nat2Z.inj_le. exact T.
Qed.

Lemma averageWordLength_range_witness :
  (1 <= averageWordLength (Reasoning.summary Sample.plainReasoning))%Q.
Proof.
  apply (proj2 (averageWordLength_range (Reasoning.summary Sample.plainReasoning))).
  reflexivity.
Defined.

(** ** More on the critique agent *)

Lemma ofNat_div_le_1 s o : 0 < o -> s <= o -> (Num.ofNat s / Num.ofNat o <= 1)%Q.
Proof.
  intros Ho H. apply Qle_shift_div_r; [now apply ofNat_pos|].
  rewrite Qmult_1_l. unfold Num.ofNat. rewrite <- Zle_Qle. lia.
Qed.

Lemma ofNat_div_ge_1 s o : 0 < o -> o <= s -> (1 <= Num.ofNat s / Num.ofNat o)%Q.
Proof.
  intros Ho H. apply Qle_shift_div_l; [now apply ofNat_pos|].
  rewrite Qmult_1_l. unfold Num.ofNat. rewrite <- Zle_Qle. lia.
Qed.

Lemma ofNat_div_nonneg s o : 0 < o -> (0 <= Num.ofNat s / Num.ofNat o)%Q.
Proof.
  intros Ho. apply Qle_shift_div_l; [now apply ofNat_pos|].
  rewrite Qmult_0_l. apply ofNat_nonneg.
Qed.

(** The rounded percentage [1 - s / o] of two word counts. *)
Lemma ratio_percent s o :
  0 < o ->
  exists p : Z,
    Num.roundPercent (Num.oneMinus (Num.divCounts s o)) = Num.Fin (inject_Z p) /\
    (p <= 100)%Z /\
    (s <= o -> (0 <= p)%Z) /\
    (o <= s -> (p <= 0)%Z).
Proof.
  intros Ho. destruct o as [|o']; [lia|].
  cbn [Num.divCounts Num.oneMinus Num.roundPercent].
  set (q := (Num.ofNat s / Num.ofNat (S o'))%Q).
  assert (Hq : (0 <= q)%Q) by (apply ofNat_div_nonneg; lia).
  eexists. split; [reflexivity|]. split; [|split].
  - apply round_le. change (inject_Z 100) with (1 * 100)%Q.
    apply Qmult_le_compat_r; [|discriminate].
    rewrite <- (Qplus_0_r 1). unfold Qminus. apply Qplus_le_r.
    change 0%Q with (- 0)%Q. now apply Qopp_le_compat.
  - intros H. apply round_ge. change (inject_Z 0) with (0 * 100)%Q.
    apply Qmult_le_compat_r; [|discriminate].
    assert (q <= 1)%Q by (apply ofNat_div_le_1; lia).
    unfold Qminus. rewrite <- (Qplus_opp_r q).
    now apply Qplus_le_l.
  - intros H. apply round_le. change (inject_Z 0) with (0 * 100)%Q.
    apply Qmult_le_compat_r; [|discriminate].
    assert (1 <= q)%Q by (apply ofNat_div_ge_1; lia).
    unfold Qminus. rewrite <- (Qplus_opp_r q).
    now apply Qplus_le_l.
Qed.

(** X11: the compression ratio is a finite number exactly when the
    normalized source has a word.  It is then a whole percentage of at
    most 100, not negative when the summary has no more words than the
    source, and not positive when it has no fewer. *)
Theorem critique_ratio_finite doc r :
  let s := countWords (Reasoning.summary r) in
  let o := countWords (normalized doc) in
  let c := runCritiqueAgent doc r in
  (Num.isFinite (Critique.compressionRatio c) = true <-> 0 < o) /\
  (0 < o ->
   exists p : Z,
     Critique.compressionRatio c = Num.Fin (inject_Z p) /\
     (p <= 100)%Z /\
     (s <= o -> (0 <= p)%Z) /\
     (o <= s -> (p <= 0)%Z)).
Proof.
  intros s o c. subst c. cbn [runCritiqueAgent Critique.compressionRatio].
  fold s o. split; [|apply ratio_percent].
  destruct o as [|o'].
  - destruct s; cbn; split; (discriminate || intros H; inversion H).
  - cbn. split; [lia | reflexivity].
Qed.

Lemma critique_ratio_finite_witness :
  exists p : Z,
    Critique.compressionRatio
      (runCritiqueAgent Sample.repetitiveDoc Sample.tinyReasoning)
    = Num.Fin (inject_Z p) /\
    (p <= 100)%Z /\
    (countWords (Reasoning.summary Sample.tinyReasoning)
       <= countWords (normalized Sample.repetitiveDoc) -> (0 <= p)%Z) /\
    (countWords (normalized Sample.repetitiveDoc)
       <= countWords (Reasoning.summary Sample.tinyReasoning) -> (p <= 0)%Z).
Proof.
  apply (proj2 (critique_ratio_finite Sample.repetitiveDoc Sample.tinyReasoning)).
  vm_compute. lia.
Defined.

Lemma over_compressed_counts s o :
  Num.jgtb (Num.oneMinus (Num.divCounts s o)) (9 # 10) = true <->
  0 < o /\ 10 * s < o.
Proof.
  destruct o as [|o]; [destruct s; cbn; split; (discriminate || lia)|].
  cbn [Num.divCounts Num.oneMinus Num.jgtb]. unfold Num.gtb.
  rewrite ltb_Qlt. unfold Qlt, Qminus, Qdiv, Qinv, Num.ofNat. simpl. lia.
Qed.

Lemma more_concise_counts s o :
  Num.jltb (Num.oneMinus (Num.divCounts s o)) (3 # 10) = true <->
  7 * o < 10 * s.
Proof.
  destruct o as [|o]; [destruct s; cbn; split; (discriminate || lia || reflexivity)|].
  cbn [Num.divCounts Num.oneMinus Num.jltb].
  rewrite ltb_Qlt. unfold Qlt, Qminus, Qdiv, Qinv, Num.ofNat. simpl. lia.
Qed.

(** X12: on the word counts [s] of the summary and [o] of the source,
    the issue "Summary may be over-compressed" is raised exactly when the
    source has a word and the summary has fewer than a tenth of its
    words, and the issue "Summary could be more concise" exactly when
    the summary has more than seven tenths of them (also for a source
    without words and a summary with one). *)
Theorem compression_issues_by_counts doc r :
  let s := countWords (Reasoning.summary r) in
  let o := countWords (normalized doc) in
  let c := runCritiqueAgent doc r in
  (In issueOverCompressed (Critique.issues c) <-> 0 < o /\ 10 * s < o) /\
  (In issueMoreConcise (Critique.issues c) <-> 7 * o < 10 * s).
Proof.
  intros s o c. subst c. unfold runCritiqueAgent. fold s o.
  set (ratio := Num.oneMinus _).
  set (missed := List.filter _ _).
  pose proof (over_compressed_counts s o) as A. fold ratio in A.
  pose proof (more_concise_counts s o) as B. fold ratio in B.
  pose proof (issueMissing_not_compression missed) as [N1 N2].
  cbn [Critique.issues].
  rewrite <- A, <- B. clear A B.
  destruct (Num.jgtb ratio (9 # 10)); destruct (Num.jltb ratio (3 # 10));
    destruct (3 <? length missed); cbn [app In];
    (split;
       (split;
          [ intros H; repeat (destruct H as [H|H]); try reflexivity;
            try contradiction; try discriminate; congruence
          | intros H; try discriminate; auto ])).
Qed.

Lemma compression_issues_by_counts_witness :
  In issueOverCompressed
    (Critique.issues (runCritiqueAgent Sample.repetitiveDoc Sample.tinyReasoning)).
Proof.
  apply (proj2 (proj1 (compression_issues_by_counts Sample.repetitiveDoc
                         Sample.tinyReasoning))).
  vm_compute. lia.
Defined.

(** *** The important terms *)

Lemma eqs_refl a : eqs a a = true.
Proof. induction a as [|x a IH]; [reflexivity|]. simpl. now rewrite eqc_refl. Qed.

Lemma eqs_iff a b : eqs a b = true <-> a = b.
Proof. split; [apply eqs_eq | intros ->; apply eqs_refl]. Qed.

Lemma eqs_false a b : eqs a b = false <-> a <> b.
Proof.
  rewrite <- eqs_iff. destruct (eqs a b); split; congruence.
Qed.

Lemma countOf_bump t c wf :
  countOf t (bump c wf) = countOf t wf + (if eqs c t then 1 else 0).
Proof.
  induction wf as [|[w n] wf IH]; cbn [bump countOf]; [lia|].
  destruct (eqs w c) eqn:Ewc.
  - apply eqs_iff in Ewc as ->. cbn [countOf].
    destruct (eqs c t); lia.
  - cbn [countOf]. destruct (eqs w t) eqn:Ewt; [|exact IH].
    apply eqs_iff in Ewt as ->. apply eqs_false in Ewc.
    destruct (eqs c t) eqn:Ect; [|lia]. apply eqs_iff in Ect. congruence.
Qed.

Lemma bump_keys c wf :
  ((c ∈ map fst wf) /\ map fst (bump c wf) = map fst wf) \/
  ((c ∉ map fst wf) /\ map fst (bump c wf) = map fst wf ++ [c]).
Proof.
  induction wf as [|[w n] wf IH]; cbn [bump map fst].
  { right. split; [apply not_elem_of_nil | reflexivity]. }
  destruct (eqs w c) eqn:E.
  - apply eqs_iff in E as ->. left. split; [apply elem_of_cons; now left | reflexivity].
  - apply eqs_false in E. cbn [map fst].
    destruct IH as [[I K]|[I K]]; [left|right]; rewrite K.
    + split; [apply elem_of_cons; now right | reflexivity].
    + split; [|reflexivity]. intros [H|H]%elem_of_cons; [congruence | contradiction].
Qed.

Lemma cleanWord_lower word : forallb isLower (cleanWord word) = true.
Proof.
  unfold cleanWord. apply forallb_forall. intros c Hc.
  now apply filter_In in Hc as [_ Hc].
Qed.

Lemma bump_keysOk c wf :
  counted c = true -> forallb isLower c = true -> keysOk wf -> keysOk (bump c wf).
Proof.
  intros Hc Hl [ND F]. unfold keysOk.
  destruct (bump_keys c wf) as [[_ K]|[I K]]; rewrite K; [now split|].
  split.
  - apply NoDup_app. split; [exact ND|]. split; [|apply NoDup_singleton].
    intros x Hx Hxc. apply list_elem_of_singleton in Hxc as ->. contradiction.
  - apply Forall_app. split; [exact F|]. now repeat constructor.
Qed.

Lemma countTerms_fold ws : forall wf,
  let out :=
    fold_left
      (fun wordFreq word =>
         let cleaned := cleanWord word in
         if (4 <? length cleaned) && negb (existsb (eqs cleaned) stopWords)
         then bump cleaned wordFreq else wordFreq)
      ws wf in
  (keysOk wf -> keysOk out) /\
  (forall t, countOf t out =
             countOf t wf +
             length (List.filter
                       (fun word => counted (cleanWord word) && eqs (cleanWord word) t)
                       ws)).
Proof.
  induction ws as [|word ws IH]; intros wf; cbn zeta.
  - split; [auto|]. intros t. cbn. lia.
  - cbn [fold_left List.filter]. fold (counted (cleanWord word)).
    destruct (counted (cleanWord word)) eqn:C.
    + destruct (IH (bump (cleanWord word) wf)) as [IH1 IH2]. cbn zeta in IH1, IH2.
      split.
      * intros K. apply IH1, bump_keysOk; [exact C | apply cleanWord_lower | exact K].
      * intros t. rewrite IH2, countOf_bump. cbn [andb].
        destruct (eqs (cleanWord word) t); cbn [length]; lia.
    + destruct (IH wf) as [IH1 IH2]. cbn zeta in IH1, IH2.
      split; [exact IH1|]. intros t. now rewrite IH2.
Qed.

Lemma countOf_entry wf t n :
  NoDup (map fst wf) -> (t, n) ∈ wf -> countOf t wf = n.
Proof.
  induction wf as [|[w m] wf IH]; intros ND H; [now apply elem_of_nil in H|].
  cbn [map fst] in ND. apply NoDup_cons in ND as [Hw ND].
  cbn [countOf]. apply elem_of_cons in H as [H|H].
  - injection H as -> ->. now rewrite eqs_refl.
  - destruct (eqs w t) eqn:E; [|now apply IH].
    apply eqs_iff in E as ->. exfalso. apply Hw.
    change t with (fst (t, n)). now apply list_elem_of_fmap_2.
Qed.

Section SortDescending.
Context {A : Type}.
Variable key : A -> nat.

Lemma insertBy_descending x l :
  StronglySorted (fun a b => key b <= key a) l ->
  StronglySorted (fun a b => key b <= key a)
    (insertBy (fun a b => (Z.of_nat (key b) - Z.of_nat (key a))%Z) x l).
Proof.
  induction 1 as [|y l Hl IH Hy]; simpl.
  - repeat constructor.
  - destruct (Z.leb_spec (Z.of_nat (key y) - Z.of_nat (key x)) 0) as [Hc|Hc].
    + constructor; [now constructor|].
      constructor; [lia|].
      eapply Forall_impl; [exact Hy|]. intros z Hz. simpl in *. lia.
    + constructor; [exact IH|].
      eapply Permutation_Forall; [symmetry; apply insertBy_Permutation|].
      constructor; [lia | exact Hy].
Qed.

Lemma sortBy_descending l :
  StronglySorted (fun a b => key b <= key a)
    (sortBy (fun a b => (Z.of_nat (key b) - Z.of_nat (key a))%Z) l).
Proof.
  induction l as [|x l IH]; simpl; [constructor|].
  now apply insertBy_descending.
Qed.

End SortDescending.

Lemma StronglySorted_take {A} (R : A -> A -> Prop) (l : list A) n :
  StronglySorted R l -> StronglySorted R (take n l).
Proof.
  intros H. revert n. induction H as [|x l Hl IH Hx]; intros [|n]; cbn [take];
    try constructor; [apply IH | now apply Forall_take].
Qed.

Lemma NoDup_keys_filter (P : jsstring * nat -> bool) wf :
  NoDup (map fst wf) -> NoDup (map fst (List.filter P wf)).
Proof.
  induction wf as [|e wf IH]; intros ND; [constructor|].
  cbn [map] in ND. apply NoDup_cons in ND as [He ND].
  cbn [List.filter]. destruct (P e); [|now apply IH].
  cbn [map]. apply NoDup_cons. split; [|now apply IH].
  intros H. apply He. apply list_elem_of_In, in_map_iff in H as (e' & E & H).
  apply filter_In in H as [H _].
  apply list_elem_of_In, in_map_iff. now exists e'.
Qed.

Lemma sorted_counts_frequencies (g : jsstring -> nat) (l : list (jsstring * nat)) :
  StronglySorted (fun a b => snd b <= snd a) l ->
  Forall (fun e => snd e = g (fst e)) l ->
  StronglySorted (fun s t => g t <= g s) (map fst l).
Proof.
  induction 1 as [|e l Hl IH He]; intros F; [constructor|].
  apply Forall_cons in F as [Fe F]. cbn [map].
  constructor; [now apply IH|].
  apply Forall_forall. intros t Ht.
  apply list_elem_of_In, in_map_iff in Ht as (e' & <- & Ht).
  apply list_elem_of_In in Ht.
  rewrite Forall_forall in He, F.
  rewrite <- Fe, <- (F e' Ht). now apply He.
Qed.

(** The entries of the counted words: distinct keys, each a counted word
    of lower-case letters, recorded with its frequency in the text. *)
Lemma countTerms_entries text :
  let wf := countTerms (splitWs (toLowerCase text)) in
  keysOk wf /\
  Forall (fun e => snd e = termFrequency text (fst e)) wf.
Proof.
  cbn zeta. unfold countTerms.
  destruct (countTerms_fold (splitWs (toLowerCase text)) []) as [K C].
  cbn zeta in K, C.
  assert (K0 : keysOk []) by (split; constructor).
  specialize (K K0). split; [exact K|].
  apply Forall_forall. intros [t n] He. cbn [fst snd].
  destruct K as [ND F].
  rewrite <- (countOf_entry _ t n ND He), C. cbn [countOf Nat.add].
  unfold termFrequency. f_equal. apply List.filter_ext. intros word.
  destruct (eqs (cleanWord word) t) eqn:E; [|apply andb_false_r].
  apply eqs_iff in E. rewrite E, andb_true_r.
  rewrite Forall_forall in F.
  apply (F t). change t with (fst (t, n)). now apply list_elem_of_fmap_2.
Qed.

(** X13: [extractImportantTerms] returns at most ten terms, all
    different and in the order of falling frequency.  Each is a word of
    more than four lower-case letters that is no stop word, is not
    [constructor], and occurs at least twice among the cleaned words of
    the lower-cased text. *)
Theorem importantTerms_invariants text :
  let terms := extractImportantTerms text in
  length terms <= 10 /\
  NoDup terms /\
  StronglySorted (fun s t => termFrequency text t <= termFrequency text s) terms /\
  Forall
    (fun t =>
       4 < length t /\
       forallb isLower t = true /\
       existsb (eqs t) stopWords = false /\
       t <> str "constructor" /\
       2 <= termFrequency text t)
    terms.
Proof.
  cbn zeta. unfold extractImportantTerms.
  destruct (countTerms_entries text) as [[ND K] Fr]. cbn zeta in ND, K, Fr.
  set (wf := countTerms (splitWs (toLowerCase text))) in *.
  set (P := fun e : jsstring * nat =>
              (2 <=? snd e) && negb (eqs (fst e) (str "constructor"))).
  set (cmp := fun a b : jsstring * nat => (Z.of_nat (snd b) - Z.of_nat (snd a))%Z).
  assert (In_top : forall e, e ∈ take 10 (sortBy cmp (List.filter P wf)) ->
                             e ∈ wf /\ P e = true).
  { intros e He. apply elem_of_take in He as (i & He & _).
    apply list_elem_of_lookup_2 in He. rewrite sortBy_Permutation in He.
    apply list_elem_of_In, filter_In in He as [He Pe].
    split; [now apply list_elem_of_In | exact Pe]. }
  split; [|split; [|split]].
  - rewrite length_map, length_take. lia.
  - change (map fst (take 10 (sortBy cmp (List.filter P wf))))
      with (fst <$> take 10 (sortBy cmp (List.filter P wf))).
    rewrite fmap_take. eapply sublist_NoDup; [|apply sublist_take].
    rewrite sortBy_Permutation. now apply NoDup_keys_filter.
  - apply sorted_counts_frequencies.
    + apply StronglySorted_take. apply (sortBy_descending snd).
    + apply Forall_forall. intros e He. apply In_top in He as [He _].
      rewrite Forall_forall in Fr. now apply Fr.
  - apply Forall_forall. intros t Ht.
    apply list_elem_of_In, in_map_iff in Ht as (e & <- & He).
    apply list_elem_of_In, In_top in He as [He Pe].
    rewrite Forall_forall in K. rewrite Forall_forall in Fr.
    destruct (K (fst e)) as [Hc Hl]; [now apply list_elem_of_fmap_2|].
    unfold counted in Hc. apply andb_true_iff in Hc as [H4 Hs].
    apply Nat.ltb_lt in H4. apply negb_true_iff in Hs.
    unfold P in Pe. apply andb_true_iff in Pe as [H2 Hk].
    apply Nat.leb_le in H2. apply negb_true_iff, eqs_false in Hk.
    rewrite <- (Fr e He). auto.
Qed.

(** ** More on the output refiner *)

Lemma upper_char_facts c :
  isSpace (toUpperChar c) = isSpace c /\
  isPunct (toUpperChar c) = isPunct c /\
  isLower (toUpperChar c) = false /\
  eqc (toUpperChar c) " "%char = eqc c " "%char.
Proof. destruct c as [[] [] [] [] [] [] [] []]; repeat split. Qed.

Lemma capitalize_cons c s : capitalize (c :: s) = toUpperChar c :: s.
Proof. reflexivity. Qed.

Lemma forallb_snoc {A} (f : A -> bool) l x :
  forallb f (l ++ [x]) = forallb f l && f x.
Proof. rewrite forallb_app. simpl. now rewrite andb_true_r. Qed.

Lemma isBlank_rev s : forallb isSpace (rev s) = isBlank s.
Proof.
  unfold isBlank. induction s as [|c s IH]; [reflexivity|].
  cbn [rev forallb]. rewrite forallb_snoc, IH. apply andb_comm.
Qed.

Lemma dropWhile_blank s : isBlank s = true -> dropWhile isSpace s = [].
Proof.
  unfold isBlank. induction s as [|c s IH]; [reflexivity|].
  cbn [forallb dropWhile]. intros [Hc Hs]%andb_true_iff. rewrite Hc. now apply IH.
Qed.

Lemma dropWhile_snoc s c :
  isBlank s = false -> dropWhile isSpace (s ++ [c]) = dropWhile isSpace s ++ [c].
Proof.
  unfold isBlank. induction s as [|d s IH]; [discriminate|].
  cbn [forallb app dropWhile]. destruct (isSpace d); [apply IH | reflexivity].
Qed.

(** [trimEnd], read from the front of the text. *)
Lemma trimEnd_cons c s :
  trimEnd (c :: s) = if isSpace c && isBlank s then [] else c :: trimEnd s.
Proof.
  unfold trimEnd. cbn [rev].
  destruct (isBlank s) eqn:B.
  - assert (R : isBlank (rev s) = true) by (unfold isBlank at 1; now rewrite isBlank_rev).
    assert (E : dropWhile isSpace (rev s ++ [c]) = dropWhile isSpace [c]).
    { clear -R. unfold isBlank in R. induction (rev s) as [|d r IH]; [reflexivity|].
      cbn [forallb] in R. apply andb_true_iff in R as [Hd R].
      cbn [app dropWhile]. rewrite Hd. now apply IH. }
    rewrite E, (dropWhile_blank _ R). cbn [dropWhile].
    rewrite andb_true_r. now destruct (isSpace c).
  - rewrite andb_false_r. rewrite dropWhile_snoc.
    + now rewrite rev_app_distr.
    + unfold isBlank at 1. now rewrite isBlank_rev.
Qed.

Lemma trimEnd_nil : trimEnd [] = [].
Proof. reflexivity. Qed.

Lemma trimEnd_head s :
  trimEnd s = [] \/ exists c t t', s = c :: t /\ trimEnd s = c :: t'.
Proof.
  destruct s as [|c s]; [now left|]. rewrite trimEnd_cons.
  destruct (isSpace c && isBlank s); [now left | right; now eexists _, _, _].
Qed.

Lemma startsWithSpace_trimEnd s :
  startsWithSpace s = false -> startsWithSpace (trimEnd s) = false.
Proof.
  destruct (trimEnd_head s) as [->|(c & t & t' & -> & ->)]; [reflexivity | auto].
Qed.

Lemma startsWithPunct_trimEnd s :
  startsWithPunct s = false -> startsWithPunct (trimEnd s) = false.
Proof.
  destruct (trimEnd_head s) as [->|(c & t & t' & -> & ->)]; [reflexivity | auto].
Qed.

Lemma endsWithSpace_trimEnd s : endsWithSpace (trimEnd s) = false.
Proof.
  induction s as [|c s IH]; [reflexivity|]. rewrite trimEnd_cons.
  destruct (isSpace c) eqn:Hc; destruct (isBlank s) eqn:B; cbn [andb]; try reflexivity.
  - cbn [endsWithSpace]. destruct (trimEnd s) eqn:E; [|exact IH].
    exfalso. clear -B E. revert E. induction s as [|d s IH]; [discriminate|].
    rewrite trimEnd_cons. unfold isBlank in B. cbn [forallb] in B.
    destruct (isSpace d); cbn [andb] in *; [|discriminate].
    fold (isBlank s) in B. rewrite B. cbn [andb]. discriminate.
  - cbn [endsWithSpace]. destruct (trimEnd s) eqn:E; [exact Hc | exact IH].
  - cbn [endsWithSpace]. destruct (trimEnd s) eqn:E; [exact Hc | exact IH].
Qed.

Lemma singleSpaced_trimEnd s : singleSpaced s = true -> singleSpaced (trimEnd s) = true.
Proof.
  induction s as [|c s IH]; [reflexivity|]. rewrite trimEnd_cons.
  destruct (isSpace c && isBlank s); [reflexivity|].
  cbn [singleSpaced]. intros [H1 H2]%andb_true_iff.
  rewrite (IH H2), andb_true_r.
  destruct (isSpace c); [|reflexivity]. cbn [negb orb] in *.
  apply andb_true_iff in H1 as [-> H1]. apply negb_true_iff in H1.
  now rewrite startsWithSpace_trimEnd.
Qed.

Lemma noSpaceBeforePunct_trimEnd s :
  noSpaceBeforePunct s = true -> noSpaceBeforePunct (trimEnd s) = true.
Proof.
  induction s as [|c s IH]; [reflexivity|]. rewrite trimEnd_cons.
  destruct (isSpace c && isBlank s); [reflexivity|].
  cbn [noSpaceBeforePunct]. intros [H1 H2]%andb_true_iff.
  rewrite (IH H2), andb_true_r.
  destruct (isSpace c); [|reflexivity]. cbn [andb] in *.
  apply negb_true_iff in H1. now rewrite startsWithPunct_trimEnd.
Qed.

Lemma trimStart_shape s :
  startsWithSpace (trimStart s) = false /\
  (singleSpaced s = true -> singleSpaced (trimStart s) = true) /\
  (noSpaceBeforePunct s = true -> noSpaceBeforePunct (trimStart s) = true).
Proof.
  unfold trimStart. induction s as [|c s (I1 & I2 & I3)]; [now repeat split|].
  cbn [dropWhile]. destruct (isSpace c) eqn:Hc.
  - split; [exact I1|]. split.
    + cbn [singleSpaced]. intros [_ H]%andb_true_iff. auto.
    + cbn [noSpaceBeforePunct]. intros [_ H]%andb_true_iff. auto.
  - now repeat split.
Qed.

(** The text after the clean-up of [refineSummary]. *)
Lemma trim_shape s :
  singleSpaced s = true -> noSpaceBeforePunct s = true ->
  let t := trim s in
  singleSpaced t = true /\ noSpaceBeforePunct t = true /\
  startsWithSpace t = false /\ endsWithSpace t = false.
Proof.
  intros H1 H2. cbn zeta. unfold trim.
  destruct (trimStart_shape s) as (S1 & S2 & S3).
  repeat split.
  - apply singleSpaced_trimEnd; auto.
  - apply noSpaceBeforePunct_trimEnd; auto.
  - now apply startsWithSpace_trimEnd.
  - apply endsWithSpace_trimEnd.
Qed.

Lemma startsWithSpace_collapseWs s :
  startsWithSpace (collapseWs s) = startsWithSpace s.
Proof.
  induction s as [|c s IH]; [reflexivity|].
  cbn [collapseWs startsWithSpace]. destruct (isSpace c) eqn:Hc.
  - destruct s as [|d s]; [reflexivity|].
    destruct (isSpace d) eqn:Hd; [|reflexivity].
    rewrite IH. exact Hd.
  - exact Hc.
Qed.

Lemma singleSpaced_collapseWs s : singleSpaced (collapseWs s) = true.
Proof.
  induction s as [|c s IH]; [reflexivity|].
  cbn [collapseWs]. destruct (isSpace c) eqn:Hc.
  - destruct s as [|d s]; [reflexivity|].
    destruct (isSpace d) eqn:Hd; [exact IH|].
    cbn [singleSpaced]. rewrite IH, startsWithSpace_collapseWs.
    cbn [startsWithSpace]. rewrite Hd. reflexivity.
  - cbn [singleSpaced]. now rewrite Hc, IH.
Qed.

Lemma stripSpaceBeforePunct_nonspace c s :
  isSpace c = false ->
  stripSpaceBeforePunct (c :: s) = c :: stripSpaceBeforePunct s.
Proof. intros Hc. cbn [stripSpaceBeforePunct]. now rewrite Hc. Qed.

Lemma punctAhead_nonspace s :
  startsWithSpace s = false -> punctAhead s = startsWithPunct s.
Proof.
  destruct s as [|d s]; [reflexivity|]. cbn [startsWithSpace].
  intros Hd. unfold punctAhead. cbn [dropWhile]. now rewrite Hd.
Qed.

Lemma strip_head s :
  startsWithSpace s = false ->
  startsWithSpace (stripSpaceBeforePunct s) = false /\
  startsWithPunct (stripSpaceBeforePunct s) = startsWithPunct s.
Proof.
  destruct s as [|d s]; [now split|]. cbn [startsWithSpace]. intros Hd.
  rewrite stripSpaceBeforePunct_nonspace by assumption. now split.
Qed.

Lemma strip_shape s :
  singleSpaced s = true ->
  singleSpaced (stripSpaceBeforePunct s) = true /\
  noSpaceBeforePunct (stripSpaceBeforePunct s) = true.
Proof.
  induction s as [|c s IH]; [now split|].
  cbn [singleSpaced]. intros [H1 H2]%andb_true_iff.
  destruct (IH H2) as [I1 I2]. cbn [stripSpaceBeforePunct].
  destruct (isSpace c) eqn:Hc; cbn [negb orb andb] in *.
  - apply andb_true_iff in H1 as [Hsp Hn]. apply negb_true_iff in Hn.
    destruct (strip_head s Hn) as [Hs Hp].
    rewrite (punctAhead_nonspace s Hn).
    destruct (startsWithPunct s) eqn:P; [now split|].
    cbn [singleSpaced noSpaceBeforePunct].
    now rewrite Hc, Hsp, Hs, Hp, I1, I2.
  - cbn [singleSpaced noSpaceBeforePunct]. now rewrite Hc, I1, I2.
Qed.

Lemma capitalize_shape s :
  singleSpaced (capitalize s) = singleSpaced s /\
  noSpaceBeforePunct (capitalize s) = noSpaceBeforePunct s /\
  startsWithSpace (capitalize s) = startsWithSpace s /\
  endsWithSpace (capitalize s) = endsWithSpace s /\
  startsWithLower (capitalize s) = false.
Proof.
  destruct s as [|c s]; [now repeat split|]. rewrite capitalize_cons.
  destruct (upper_char_facts c) as (F1 & F2 & F3 & F4).
  cbn [singleSpaced noSpaceBeforePunct startsWithSpace endsWithSpace startsWithLower].
  rewrite F1, F3, F4. repeat split.
Qed.

Lemma snoc_period_shape s :
  singleSpaced s = true -> noSpaceBeforePunct s = true ->
  startsWithSpace s = false -> endsWithSpace s = false ->
  startsWithLower s = false ->
  let t := s ++ str "." in
  singleSpaced t = true /\ noSpaceBeforePunct t = true /\
  startsWithSpace t = false /\ endsWithSpace t = false /\
  startsWithLower t = false.
Proof.
  intros H1 H2 H3 H4 H5. cbn zeta. change (str ".") with ["."%char].
  assert (A : singleSpaced (s ++ ["."%char]) = true).
  { clear -H1. induction s as [|c s IH]; [reflexivity|].
    cbn [app singleSpaced] in *. apply andb_true_iff in H1 as [Hc Hs].
    rewrite (IH Hs), andb_true_r. destruct s; exact Hc. }
  assert (B : noSpaceBeforePunct (s ++ ["."%char]) = true).
  { clear -H2 H4. induction s as [|c s IH]; [reflexivity|].
    cbn [app noSpaceBeforePunct] in *. apply andb_true_iff in H2 as [Hc Hs].
    destruct s as [|d s].
    - cbn [endsWithSpace] in H4. cbn. now rewrite H4.
    - cbn [endsWithSpace] in H4. rewrite (IH Hs H4), andb_true_r. exact Hc. }
  assert (C : endsWithSpace (s ++ ["."%char]) = false).
  { clear. induction s as [|c s IH]; [reflexivity|].
    cbn [app endsWithSpace]. destruct s; [reflexivity | exact IH]. }
  repeat split; try assumption; destruct s; auto.
Qed.

(** The shape of a polished text. *)
Lemma polish_shape base :
  let out := polish base in
  out <> [] /\
  singleSpaced out = true /\
  noSpaceBeforePunct out = true /\
  startsWithSpace out = false /\
  endsWithSpace out = false /\
  startsWithLower out = false.
Proof.
  cbn zeta. unfold polish.
  set (t := trim (stripSpaceBeforePunct (collapseWs base))).
  fold (capitalize t).
  destruct (strip_shape _ (singleSpaced_collapseWs base)) as [S1 S2].
  destruct (trim_shape _ S1 S2) as (T1 & T2 & T3 & T4). fold t in T1, T2, T3, T4.
  destruct (capitalize_shape t) as (C1 & C2 & C3 & C4 & C5).
  rewrite <- C1 in T1. rewrite <- C2 in T2. rewrite <- C3 in T3. rewrite <- C4 in T4.
  set (u := capitalize t) in *.
  destruct (negb (endsWith u (str ".")) && negb (endsWith u (str "!")) &&
            negb (endsWith u (str "?"))) eqn:E.
  - destruct (snoc_period_shape u T1 T2 T3 T4 C5) as (P1 & P2 & P3 & P4 & P5).
    repeat split; try assumption. now destruct u.
  - repeat split; try assumption. intros ->. discriminate.
Qed.

(** X14: whatever the base text, the refined summary is not empty; its
    white space is single spaces only, none at its start, at its end or
    directly before one of [.,!?]; and it does not start with a
    lower-case letter. *)
Theorem refined_summary_shape r v s c :
  let out := refineSummary r v s c in
  out <> [] /\
  singleSpaced out = true /\
  noSpaceBeforePunct out = true /\
  startsWithSpace out = false /\
  endsWithSpace out = false /\
  startsWithLower out = false.
Proof. unfold refineSummary. apply polish_shape. Qed.

Lemma collapseWs_fixed s : singleSpaced s = true -> collapseWs s = s.
Proof.
  induction s as [|c s IH]; [reflexivity|].
  cbn [singleSpaced collapseWs]. intros [H1 H2]%andb_true_iff.
  rewrite (IH H2). destruct (isSpace c); [|reflexivity].
  cbn [negb orb] in H1. apply andb_true_iff in H1 as [Hc Hn].
  apply eqc_eq in Hc as ->. apply negb_true_iff in Hn.
  destruct s as [|d s]; [reflexivity|].
  cbn [startsWithSpace] in Hn. now rewrite Hn.
Qed.

Lemma stripSpaceBeforePunct_fixed s :
  singleSpaced s = true -> noSpaceBeforePunct s = true ->
  stripSpaceBeforePunct s = s.
Proof.
  induction s as [|c s IH]; [reflexivity|].
  cbn [singleSpaced noSpaceBeforePunct stripSpaceBeforePunct].
  intros [H1 H2]%andb_true_iff [N1 N2]%andb_true_iff.
  rewrite (IH H2 N2). destruct (isSpace c); [|reflexivity].
  cbn [negb orb andb] in *. apply andb_true_iff in H1 as [_ Hn].
  apply negb_true_iff in Hn, N1.
  now rewrite (punctAhead_nonspace s Hn), N1.
Qed.

Lemma blank_endsWithSpace s :
  isBlank s = true -> s <> [] -> endsWithSpace s = true.
Proof.
  unfold isBlank. induction s as [|c s IH]; [congruence|].
  cbn [forallb endsWithSpace]. intros [Hc Hs]%andb_true_iff _.
  destruct s as [|d s]; [exact Hc|]. now apply IH.
Qed.

Lemma trimEnd_fixed s : endsWithSpace s = false -> trimEnd s = s.
Proof.
  induction s as [|c s IH]; [reflexivity|].
  cbn [endsWithSpace]. rewrite trimEnd_cons. destruct s as [|d s].
  - intros ->. reflexivity.
  - intros H. rewrite (IH H).
    destruct (isBlank (d :: s)) eqn:B; [|now rewrite andb_false_r].
    rewrite (blank_endsWithSpace _ B) in H by discriminate. discriminate.
Qed.

Lemma trim_fixed s :
  startsWithSpace s = false -> endsWithSpace s = false -> trim s = s.
Proof.
  intros H1 H2. unfold trim, trimStart.
  assert (E : dropWhile isSpace s = s).
  { destruct s as [|c s]; [reflexivity|]. cbn [startsWithSpace] in H1.
    cbn [dropWhile]. now rewrite H1. }
  rewrite E. now apply trimEnd_fixed.
Qed.

Lemma capitalize_fixed s : startsWithLower s = false -> capitalize s = s.
Proof.
  destruct s as [|c s]; [reflexivity|]. cbn [startsWithLower]. intros H.
  rewrite capitalize_cons. unfold toUpperChar. now rewrite H.
Qed.

(** A text in the shape of a refined summary is left as it is. *)
Lemma polish_fixed s :
  singleSpaced s = true -> noSpaceBeforePunct s = true ->
  startsWithSpace s = false -> endsWithSpace s = false ->
  startsWithLower s = false -> endsWithTerminal s = true ->
  polish s = s.
Proof.
  intros H1 H2 H3 H4 H5 H6. unfold polish.
  rewrite (collapseWs_fixed s H1), (stripSpaceBeforePunct_fixed s H1 H2),
    (trim_fixed s H3 H4).
  fold (capitalize s). rewrite (capitalize_fixed s H5).
  unfold endsWithTerminal in H6.
  destruct (endsWith s (str ".")); [reflexivity|].
  destruct (endsWith s (str "!")); [reflexivity|].
  destruct (endsWith s (str "?")); [reflexivity | discriminate].
Qed.

(** X15: refining is idempotent: the clean-up of [refineSummary], applied
    to a refined summary, returns it unchanged; so a refined summary
    taken as the base text of another call comes back as it is. *)
Theorem refine_idempotent r v s c :
  polish (refineSummary r v s c) = refineSummary r v s c /\
  (forall r' v' s' c',
     baseText r' v' s' = refineSummary r v s c ->
     refineSummary r' v' s' c' = refineSummary r v s c).
Proof.
  assert (P : polish (refineSummary r v s c) = refineSummary r v s c).
  { destruct (polish_shape (baseText r v s)) as (_ & H1 & H2 & H3 & H4 & H5).
    apply polish_fixed; try assumption. apply polish_terminal. }
  split; [exact P|]. intros r' v' s' c' E.
  unfold refineSummary at 1. now rewrite E.
Qed.

Lemma refine_idempotent_witness :
  refineSummary
    {| Reasoning.summary := str ".";
       Reasoning.confidence := 75 # 100;
       Reasoning.keyPoints := 0 |}
    Sample.emptyVerification Sample.emptySimplification Sample.emptyCritique
  = refineSummary Sample.emptyReasoning Sample.emptyVerification
      Sample.emptySimplification Sample.emptyCritique.
Proof.
  apply (proj2 (refine_idempotent Sample.emptyReasoning Sample.emptyVerification
                  Sample.emptySimplification Sample.emptyCritique)).
  reflexivity.
Defined.

(** ** The input processor *)

Lemma splitSentences_cons_exists skipping s :
  exists w ws, splitSentences skipping s = w :: ws.
Proof.
  revert skipping. induction s as [|c s IH]; intros skipping; [now eexists _, _|].
  cbn [splitSentences]. destruct (skipping && isSpace c); [apply IH|].
  destruct (isTerminal c && startsWithSpace s); [now eexists _, _|].
  destruct (IH false) as (w & ws & ->). now eexists _, _.
Qed.

Lemma infixOf_cons p c s : infixOf p s -> infixOf p (c :: s).
Proof. intros (a & b & ->). now exists (c :: a), b. Qed.

(** The pieces of a text cut into sentences: their words are the words
    of the text, each piece occurs in the text, and the first piece sits
    at its start (when the scan is not inside a separator). *)
Lemma splitSentences_pieces s : forall skipping,
  let pieces := splitSentences skipping s in
  concat (map words pieces) = words s /\
  Forall (fun p => infixOf p s) pieces /\
  (skipping && startsWithSpace s = false ->
   forall w ws, pieces = w :: ws -> firstPiece s w ws).
Proof.
  induction s as [|c s IH]; intros skipping; cbn zeta.
  - split; [reflexivity|]. split; [repeat constructor; now exists [], []|].
    intros _ w ws E. injection E as <- <-. now left.
  - cbn [splitSentences startsWithSpace].
    destruct (skipping && isSpace c) eqn:K.
    + destruct (IH true) as (W & F & _). cbn zeta in W, F.
      apply andb_true_iff in K as [_ Hc].
      split; [now rewrite words_space|].
      split; [|discriminate].
      eapply Forall_impl; [exact F|]. intros p. apply infixOf_cons.
    + destruct (isTerminal c && startsWithSpace s) eqn:Cut.
      * destruct (IH true) as (W & F & _). cbn zeta in W, F.
        apply andb_true_iff in Cut as [Ht Hs].
        destruct s as [|d s]; [discriminate|]. cbn [startsWithSpace] in Hs.
        assert (Ws : words (c :: d :: s) = words [c] ++ words s)
          by apply (words_app_space [c] d s Hs).
        assert (Wd : words (d :: s) = words s) by now apply words_space.
        split; [cbn [map concat]; now rewrite W, Ws, Wd|].
        split.
        -- constructor; [now exists [], (d :: s)|].
           eapply Forall_impl; [exact F|]. intros p. apply infixOf_cons.
        -- intros _ w ws E. injection E as <- <-. right.
           exists d, s. split; [exact Hs|]. split; [reflexivity|].
           etransitivity; [exact W | exact Wd].
      * destruct (IH false) as (W & F & P). cbn zeta in W, F, P.
        destruct (splitSentences_cons_exists false s) as (w & ws & E).
        rewrite E in *. specialize (P eq_refl w ws eq_refl).
        assert (Fws : Forall (fun p => infixOf p (c :: s)) ws).
        { apply Forall_cons in F as [_ F].
          eapply Forall_impl; [exact F|]. intros p. apply infixOf_cons. }
        destruct P as [[-> ->]|(d & rest & Hd & -> & Wr)].
        -- split; [cbn [map concat]; now rewrite app_nil_r|].
           split; [constructor; [exists [], []; cbn; now rewrite app_nil_r|constructor]|].
           intros _ w' ws' E'. injection E' as <- <-. now left.
        -- split.
           { cbn [map concat]. rewrite Wr.
             change (c :: w ++ d :: rest) with ((c :: w) ++ d :: rest).
             now rewrite words_app_space. }
           split; [constructor; [now exists [], (d :: rest)|exact Fws]|].
           intros _ w' ws' E'. injection E' as <- <-. right.
           exists d, rest. split; [exact Hd|]. split; [reflexivity | exact Wr].
Qed.

Lemma total_countWords (l : list jsstring) :
  total (map countWords l) = length (concat (map words l)).
Proof.
  induction l as [|p l IH]; [reflexivity|].
  cbn [map concat total fold_right]. rewrite length_app, countWords_words.
  f_equal. exact IH.
Qed.

Lemma total_sublist_le (f : jsstring -> nat) (l1 l2 : list jsstring) :
  sublist l1 l2 -> total (map f l1) <= total (map f l2).
Proof.
  induction 1 as [|x l1 l2 _ IH|x l1 l2 _ IH]; cbn [map total fold_right];
    unfold total in *; lia.
Qed.

Lemma filter_sublist {A} (f : A -> bool) (l : list A) : sublist (List.filter f l) l.
Proof.
  induction l as [|x l IH]; [constructor|]. cbn [List.filter].
  destruct (f x); [now apply sublist_skip | now apply sublist_cons].
Qed.

Lemma processInput_sentencesFromText text : sentencesFromText (processInput text).
Proof.
  unfold sentencesFromText. cbn [processInput sentences normalized].
  set (n := removeMatches emailMatchLength 0 _).
  destruct (splitSentences_pieces n false) as (_ & F & _). cbn zeta in F.
  apply Forall_forall. intros t Ht.
  apply list_elem_of_In, filter_In in Ht as [Ht _].
  rewrite Forall_forall in F. now apply F, list_elem_of_In.
Qed.

Lemma processInput_sentence_words text :
  total (map countWords (sentences (processInput text)))
  <= countWords (normalized (processInput text)).
Proof.
  cbn [processInput sentences normalized].
  set (n := removeMatches emailMatchLength 0 _).
  destruct (splitSentences_pieces n false) as (W & _ & _). cbn zeta in W.
  rewrite (countWords_words n), <- W, <- total_countWords.
  apply total_sublist_le, filter_sublist.
Qed.

(** X16: in the document that [processInput] builds, every sentence has
    more than ten characters and occurs in the normalized text, and the
    sentences together have no more words than the normalized text,
    whose word count is the [wordCount] of the document. *)
Theorem processInput_sentences text :
  let doc := processInput text in
  Forall (fun t => 10 < length t /\ infixOf t (normalized doc)) (sentences doc) /\
  total (map countWords (sentences doc)) <= wordCount doc /\
  wordCount doc = countWords (normalized doc).
Proof.
  cbn zeta. split; [|split; [apply processInput_sentence_words | reflexivity]].
  pose proof (processInput_sentencesFromText text) as F.
  unfold sentencesFromText in F. rewrite Forall_forall in F.
  apply Forall_forall. intros t Ht. split; [|now apply F].
  cbn [processInput sentences] in Ht.
  apply list_elem_of_In, filter_In in Ht as [_ Ht]. now apply Nat.ltb_lt in Ht.
Qed.

Lemma extracted_summary_words doc :
  countWords (Reasoning.summary (runReasoningAgent doc))
  <= total (map countWords (sentences doc)).
Proof.
  cbn [runReasoningAgent Reasoning.summary].
  rewrite countWords_words, words_join, <- total_countWords.
  apply total_sublist_le, topSentences_sublist.
Qed.

(** X17: in the local pipeline the extracted summary has no more words
    than the normalized text.  So the compression ratio of the critique
    is never negative: it is [NaN] when the normalized text has no word,
    and a percentage between 0 and 100 otherwise. *)
Theorem pipeline_compression_not_negative text :
  let doc := processInput text in
  let r := runReasoningAgent doc in
  let c := runCritiqueAgent doc r in
  countWords (Reasoning.summary r) <= countWords (normalized doc) /\
  (countWords (normalized doc) = 0 -> Critique.compressionRatio c = Num.NaN) /\
  (0 < countWords (normalized doc) ->
   exists p : Z,
     Critique.compressionRatio c = Num.Fin (inject_Z p) /\ (0 <= p <= 100)%Z).
Proof.
  intros doc r c.
  assert (L : countWords (Reasoning.summary r) <= countWords (normalized doc)).
  { eapply Nat.le_trans; [apply extracted_summary_words|].
    apply processInput_sentence_words. }
  split; [exact L|]. subst c. cbn [runCritiqueAgent Critique.compressionRatio].
  split.
  - intros H. rewrite H in L |- *.
    assert (E : countWords (Reasoning.summary r) = 0) by lia. now rewrite E.
  - intros H.
    destruct (ratio_percent (countWords (Reasoning.summary r)) _ H)
      as (p & E & H1 & H2 & _).
    exists p. split; [exact E|]. split; [now apply H2 | exact H1].
Qed.






Lemma pipeline_compression_not_negative_witness :
  exists p : Z,
    Critique.compressionRatio
      (runCritiqueAgent (processInput Example.harbourText)
         (runReasoningAgent (processInput Example.harbourText)))
    = Num.Fin (inject_Z p) /\ (0 <= p <= 100)%Z.
Proof.
  apply (proj2 (proj2 (pipeline_compression_not_negative Example.harbourText))).
  vm_compute. lia.
Defined.


(** ** The button handler *)

Lemma trim_head_nonspace s c t : trim s = c :: t -> isSpace c = false.
Proof.
  intros E. destruct (trimStart_shape s) as [H _].
  unfold trim in E. apply startsWithSpace_trimEnd in H. rewrite E in H. exact H.
Qed.

Lemma countWords_trimmed s c t : trim s = c :: t -> 0 < countWords (c :: t).
Proof.
  intros E. apply trim_head_nonspace in E.
  rewrite countWords_words, words_nonspace by assumption. simpl. lia.
Qed.

(** X19: [handleSummarize] is gated.  A value whose trimmed text is
    shorter than 100 characters gives a toast, whatever the state and
    the backend.  A display comes only for a trimmed text of 100
    characters or more while no run is in progress; the text shown as
    the original then has a word, so the displayed compression is a
    finite percentage of at most 100. *)
Theorem handleSummarize_gate isProcessing debugMode callBackendAPI inputValue :
  let outcome := handleSummarize isProcessing debugMode callBackendAPI inputValue in
  (length (trim inputValue) < 100 -> exists message, outcome = Toast message) /\
  (forall display,
     outcome = Displayed display ->
     100 <= length (trim inputValue) /\ isProcessing = false /\
     0 < originalWords display /\
     exists p : Z, compression display = Num.Fin (inject_Z p) /\ (p <= 100)%Z).
Proof.
  cbn zeta. unfold handleSummarize.
  destruct (trim inputValue) as [|c t] eqn:E.
  - split; [intros _; now eexists | discriminate].
  - pose proof (countWords_trimmed _ _ _ E) as W.
    destruct (Nat.ltb_spec (length (c :: t)) 100) as [L|L].
    + split; [intros _; now eexists | discriminate].
    + split; [lia|]. intros display H.
      destruct isProcessing; [discriminate|].
      assert (D : exists result, display = displayResults debugMode result (c :: t)).
      { destruct (callBackendAPI (c :: t)) as [result|];
          injection H as <-; now eexists. }
      destruct D as [result ->]. cbn [displayResults originalWords compression].
      split; [exact L|]. split; [reflexivity|]. split; [exact W|].
      destruct (ratio_percent (countWords (Result.summary result)) _ W)
        as (p & Ep & Hp & _).
      now exists p.
Qed.

Lemma handleSummarize_gate_witness :
  exists message,
    handleSummarize false true Example.noBackend (str "  too short  ") = Toast message.
Proof.
  apply (proj1 (handleSummarize_gate false true Example.noBackend
                  (str "  too short  "))).
  vm_compute. lia.
Defined.




(** ** The removal of URLs *)

Lemma matchCI_app pat : forall p q, matchCI pat p = true -> matchCI pat (p ++ q) = true.
Proof.
  induction pat as [|a pat IH]; intros p q H; [reflexivity|].
  destruct p as [|b p]; [discriminate|].
  simpl in H |- *. apply andb_true_iff in H as [-> H]. now apply IH.
Qed.

Lemma matchCI_take pat : forall s,
  matchCI pat s = true ->
  matchCI pat (take (length pat) s) = true /\
  length (take (length pat) s) = length pat.
Proof.
  induction pat as [|a pat IH]; intros s H; [now split|].
  destruct s as [|b s]; [discriminate|].
  simpl in H. apply andb_true_iff in H as [Hc H]. destruct (IH s H) as [I1 I2].
  cbn [length take matchCI]. rewrite Hc, I1, I2. now split.
Qed.

Lemma matchCI_nonSpace pat : forall s,
  forallb nonSpace pat = true -> matchCI pat s = true -> length s = length pat ->
  forallb nonSpace s = true.
Proof.
  induction pat as [|a pat IH]; intros s Hp H L.
  - destruct s; [reflexivity | discriminate].
  - destruct s as [|b s]; [discriminate|].
    cbn [forallb] in Hp. apply andb_true_iff in Hp as [Ha Hp].
    simpl in H. apply andb_true_iff in H as [Hc H].
    cbn [forallb]. rewrite (IH s Hp H) by (simpl in L; lia).
    rewrite andb_true_r. apply eqc_eq in Hc. unfold canonicalize in Hc.
    unfold nonSpace in *.
    destruct (upper_char_facts a) as [Fa _]. destruct (upper_char_facts b) as [Fb _].
    now rewrite <- Fb, <- Hc, Fa.
Qed.

Lemma isScheme_nonSpace pre : isScheme pre -> forallb nonSpace pre = true.
Proof.
  intros [[H L]|[H L]]; eapply matchCI_nonSpace; try exact H; try reflexivity; exact L.
Qed.

Lemma schemes_exclusive s :
  matchCI (str "https://") s = true -> matchCI (str "http://") s = false.
Proof.
  intros H8. destruct (matchCI (str "http://") s) eqn:H7; [|reflexivity].
  destruct s as [|c1 [|c2 [|c3 [|c4 [|c5 s]]]]];
    cbn [str list_ascii_of_string matchCI] in H7, H8;
    try discriminate; try (rewrite ?andb_false_r in H7; discriminate).
  do 4 (apply andb_true_iff in H7 as [_ H7]; apply andb_true_iff in H8 as [_ H8]).
  apply andb_true_iff in H7 as [H7 _]. apply andb_true_iff in H8 as [H8 _].
  apply eqc_eq in H7, H8. rewrite <- H7 in H8. discriminate H8.
Qed.

Lemma takeWhile_all (f : ascii -> bool) p r :
  forallb f p = true -> takeWhile f (p ++ r) = p ++ takeWhile f r.
Proof.
  induction p as [|c p IH]; [reflexivity|]. cbn [forallb app takeWhile].
  intros [-> H]%andb_true_iff. now rewrite IH.
Qed.

(** A URL starts at the head of a text when the text begins with a
    scheme and a character that is no white space. *)
Lemma urlStart_spec s :
  urlStart s = true <->
  exists pre x rest, s = pre ++ x :: rest /\ isScheme pre /\ nonSpace x = true.
Proof.
  unfold urlStart, urlMatchLength. split.
  - destruct (matchCI (str "https://") s) eqn:H8.
    + destruct (matchCI_take _ _ H8) as [M L]. cbn [str list_ascii_of_string length] in M, L.
      destruct (drop 8 s) as [|x rest] eqn:D; [discriminate|].
      cbn [takeWhile]. destruct (negb (isSpace x)) eqn:Hx; [|discriminate].
      intros _. exists (take 8 s), x, rest.
      split; [now rewrite <- D, take_drop|]. split; [left; now split | exact Hx].
    + destruct (matchCI (str "http://") s) eqn:H7; [|discriminate].
      destruct (matchCI_take _ _ H7) as [M L]. cbn [str list_ascii_of_string length] in M, L.
      destruct (drop 7 s) as [|x rest] eqn:D; [discriminate|].
      cbn [takeWhile]. destruct (negb (isSpace x)) eqn:Hx; [|discriminate].
      intros _. exists (take 7 s), x, rest.
      split; [now rewrite <- D, take_drop|]. split; [right; now split | exact Hx].
  - intros (pre & x & rest & -> & [[M L]|[M L]] & Hx).
    + rewrite (matchCI_app _ pre (x :: rest) M).
      rewrite drop_app_length' by (symmetry; exact L). cbn [takeWhile].
      unfold nonSpace in Hx. now rewrite Hx.
    + pose proof (matchCI_app _ pre (x :: rest) M) as M7. rewrite M7.
      destruct (matchCI (str "https://") (pre ++ x :: rest)) eqn:M8.
      { apply schemes_exclusive in M8. congruence. }
      rewrite drop_app_length' by (symmetry; exact L). cbn [takeWhile].
      unfold nonSpace in Hx. now rewrite Hx.
Qed.

Lemma urlStart_app p q : urlStart p = true -> urlStart (p ++ q) = true.
Proof.
  rewrite !urlStart_spec. intros (pre & x & rest & -> & S & Hx).
  exists pre, x, (rest ++ q). split; [now rewrite <- app_assoc|]. now split.
Qed.

Lemma urlStart_takeWhile s :
  urlStart s = true -> urlStart (takeWhile nonSpace s) = true.
Proof.
  rewrite !urlStart_spec. intros (pre & x & rest & -> & S & Hx).
  exists pre, x, (takeWhile nonSpace rest). split; [|now split].
  rewrite takeWhile_all by now apply isScheme_nonSpace.
  cbn [takeWhile]. now rewrite Hx.
Qed.

Lemma urlStart_space c s : isSpace c = true -> urlStart (c :: s) = false.
Proof.
  intros Hc. destruct (urlStart (c :: s)) eqn:U; [|reflexivity].
  apply urlStart_spec in U as (pre & x & rest & E & S & _).
  apply isScheme_nonSpace in S as N.
  destruct pre as [|d pre]; [destruct S as [[_ L]|[_ L]]; discriminate|].
  injection E as <- _. cbn [forallb] in N. unfold nonSpace in N.
  rewrite Hc in N. discriminate.
Qed.

Lemma removeMatches_skip f : forall s k,
  removeMatches f k s = removeMatches f 0 (drop k s).
Proof.
  induction s as [|c s IH]; intros k; [now destruct k|].
  destruct k as [|k]; [reflexivity|]. cbn [removeMatches drop]. apply IH.
Qed.

Lemma length_removeMatches f : forall s k, length (removeMatches f k s) <= length s.
Proof.
  induction s as [|c s IH]; intros k; [reflexivity|].
  cbn [removeMatches length]. destruct k as [|k].
  - destruct (f (c :: s)) as [[|n]|]; cbn [length];
      try (specialize (IH 0); lia). specialize (IH n). lia.
  - specialize (IH k). lia.
Qed.

Lemma drop_takeWhile (f : ascii -> bool) t :
  drop (length (takeWhile f t)) t = [] \/
  exists c r, drop (length (takeWhile f t)) t = c :: r /\ f c = false.
Proof.
  induction t as [|c t IH]; [now left|].
  cbn [takeWhile]. destruct (f c) eqn:F; [exact IH|].
  right. now exists c, t.
Qed.

Lemma takeWhile_dropWhile (f : ascii -> bool) s :
  s = takeWhile f s ++ dropWhile f s.
Proof.
  induction s as [|c s IH]; [reflexivity|].
  cbn [takeWhile dropWhile]. destruct (f c); [|reflexivity].
  cbn [app]. now rewrite <- IH.
Qed.

(** Behind a URL that is matched, the text ends or goes on with white
    space. *)
Lemma urlMatchLength_rest s n :
  urlMatchLength s = Some n ->
  0 < n /\ (drop n s = [] \/ startsWithSpace (drop n s) = true).
Proof.
  unfold urlMatchLength.
  set (scheme := if matchCI (str "https://") s then Some 8
                 else if matchCI (str "http://") s then Some 7 else None).
  destruct scheme as [m|]; [|discriminate].
  destruct (length (takeWhile (fun c => negb (isSpace c)) (drop m s))) as [|k] eqn:L;
    [discriminate|].
  intros E. injection E as <-. split; [lia|].
  rewrite <- drop_drop, <- L.
  destruct (drop_takeWhile (fun c => negb (isSpace c)) (drop m s))
    as [->|(c & r & -> & Hc)]; [now left|].
  right. cbn [startsWithSpace]. now apply negb_false_iff in Hc.
Qed.

Lemma removeMatches_url_space s :
  s = [] \/ startsWithSpace s = true ->
  takeWhile nonSpace (removeMatches urlMatchLength 0 s) = [].
Proof.
  intros [->|H]; [reflexivity|]. destruct s as [|c s]; [discriminate|].
  cbn [startsWithSpace] in H. cbn [removeMatches].
  pose proof (urlStart_space c s H) as U. unfold urlStart in U.
  destruct (urlMatchLength (c :: s)); [discriminate|].
  cbn [takeWhile]. unfold nonSpace. now rewrite H.
Qed.

(** Up to its first white space, what is left of a text is the
    beginning of the text. *)
Lemma removeMatches_url_prefix s :
  exists q,
    takeWhile nonSpace s =
    takeWhile nonSpace (removeMatches urlMatchLength 0 s) ++ q.
Proof.
  induction s as [|c s [q IH]]; [now exists []|].
  cbn [removeMatches].
  destruct (urlMatchLength (c :: s)) as [[|n]|] eqn:U.
  - apply urlMatchLength_rest in U as [U _]. lia.
  - apply urlMatchLength_rest in U as [_ U]. cbn [drop] in U.
    rewrite removeMatches_skip, (removeMatches_url_space _ U). now eexists.
  - cbn [takeWhile]. destruct (nonSpace c); [|now exists []].
    exists q. cbn [app]. now rewrite IH.
Qed.

Lemma removeMatches_url_clean : forall s k,
  noUrlLeft (removeMatches urlMatchLength k s) = true.
Proof.
  induction s as [|c s IH]; intros k; [reflexivity|].
  destruct k as [|k]; [|apply IH].
  pose proof (removeMatches_url_prefix (c :: s)) as [q P].
  cbn [removeMatches] in P |- *.
  destruct (urlMatchLength (c :: s)) as [[|n]|] eqn:U.
  - apply urlMatchLength_rest in U as [U _]. lia.
  - apply IH.
  - cbn [noUrlLeft]. rewrite IH, andb_true_r. apply negb_true_iff.
    destruct (urlStart (c :: removeMatches urlMatchLength 0 s)) eqn:V; [|reflexivity].
    exfalso. apply urlStart_takeWhile in V.
    apply (urlStart_app _ q) in V. rewrite <- P in V.
    apply (urlStart_app _ (dropWhile nonSpace (c :: s))) in V.
    rewrite <- takeWhile_dropWhile in V.
    unfold urlStart in V. rewrite U in V. discriminate.
Qed.

Lemma removeMatches_url_fixed s :
  noUrlLeft s = true -> removeMatches urlMatchLength 0 s = s.
Proof.
  induction s as [|c s IH]; [reflexivity|].
  cbn [noUrlLeft removeMatches]. intros [U N]%andb_true_iff.
  apply negb_true_iff in U. unfold urlStart in U.
  destruct (urlMatchLength (c :: s)); [discriminate|]. now rewrite IH.
Qed.

(** X21: the removal of URLs leaves no URL behind: in what is left, no
    scheme [http://] or [https://], in any letter case, is followed by a
    character other than white space.  The removal never lengthens the
    text, and a text without URLs is left as it is. *)
Theorem url_removal_complete s :
  let out := removeMatches urlMatchLength 0 s in
  noUrlLeft out = true /\
  length out <= length s /\
  (noUrlLeft s = true -> out = s).
Proof.
  cbn zeta. split; [apply removeMatches_url_clean|].
  split; [apply length_removeMatches | apply removeMatches_url_fixed].
Qed.

Lemma url_removal_complete_witness :
  removeMatches urlMatchLength 0 (str "No links in this text.")
  = str "No links in this text.".
Proof.
  apply (proj2 (proj2 (url_removal_complete (str "No links in this text.")))).
  reflexivity.
Defined.

(** ** The normalized text *)

Lemma removeMatches_sublist f : forall s k, sublist (removeMatches f k s) s.
Proof.
  induction s as [|c s IH]; intros k; [constructor|].
  cbn [removeMatches]. destruct k as [|k]; [|apply sublist_cons, IH].
  destruct (f (c :: s)) as [[|n]|];
    [apply sublist_skip, IH | apply sublist_cons, IH | apply sublist_skip, IH].
Qed.

Lemma trimEnd_sublist s : sublist (trimEnd s) s.
Proof.
  induction s as [|c s IH]; [constructor|]. rewrite trimEnd_cons.
  destruct (isSpace c && isBlank s); [apply sublist_nil_l | now apply sublist_skip].
Qed.

Lemma trimStart_sublist s : sublist (trimStart s) s.
Proof.
  unfold trimStart. induction s as [|c s IH]; [constructor|].
  cbn [dropWhile]. destruct (isSpace c); [now apply sublist_cons | reflexivity].
Qed.

Lemma trim_sublist s : sublist (trim s) s.
Proof.
  unfold trim. etransitivity; [apply trimEnd_sublist | apply trimStart_sublist].
Qed.

Lemma forallb_sublist (f : ascii -> bool) (l1 l2 : jsstring) :
  sublist l1 l2 -> forallb f l2 = true -> forallb f l1 = true.
Proof.
  induction 1 as [|x l1 l2 _ IH|x l1 l2 _ IH]; cbn [forallb]; [reflexivity| |].
  - intros [-> H]%andb_true_iff. now apply IH.
  - intros [_ H]%andb_true_iff. now apply IH.
Qed.

Lemma onlySpaces_collapseWs s : onlySpaces (collapseWs s) = true.
Proof.
  unfold onlySpaces. induction s as [|c s IH]; [reflexivity|].
  cbn [collapseWs]. destruct (isSpace c) eqn:Hc.
  - destruct s as [|d s]; [reflexivity|].
    destruct (isSpace d); [exact IH|]. cbn [forallb]. now rewrite IH.
  - cbn [forallb]. now rewrite Hc, IH.
Qed.

Lemma length_collapseWs s : length (collapseWs s) <= length s.
Proof.
  induction s as [|c s IH]; [reflexivity|].
  cbn [collapseWs]. destruct (isSpace c); [|simpl; lia].
  destruct s as [|d s]; [reflexivity|].
  destruct (isSpace d); simpl in *; lia.
Qed.

(** X22: the normalized text of [processInput] is obtained from the
    input by removing characters and turning white space into spaces:
    it is no longer than the input, and its only white space is the
    space character.  A blank input gives the empty document. *)
Theorem processInput_normalized text :
  let doc := processInput text in
  length (normalized doc) <= length text /\
  onlySpaces (normalized doc) = true /\
  (isBlank text = true ->
   normalized doc = [] /\ sentences doc = [] /\ wordCount doc = 0).
Proof.
  cbn zeta. cbn [processInput normalized sentences wordCount].
  set (t := trim (collapseWs text)).
  set (u := removeMatches urlMatchLength 0 t).
  set (n := removeMatches emailMatchLength 0 u).
  assert (S : sublist n (collapseWs text)).
  { etransitivity; [apply removeMatches_sublist|].
    etransitivity; [apply removeMatches_sublist | apply trim_sublist]. }
  split; [|split].
  - apply sublist_length in S. pose proof (length_collapseWs text). lia.
  - eapply forallb_sublist; [exact S | apply onlySpaces_collapseWs].
  - intros B. assert (T : t = []).
    { assert (W : words t = []).
      { subst t. rewrite words_trim. unfold words.
        rewrite splitWs_collapseWs. now apply words_blank. }
      destruct t as [|c t'] eqn:E; [reflexivity|].
      apply trim_head_nonspace in E. rewrite words_nonspace in W by assumption.
      discriminate. }
    subst u n. rewrite T. repeat split.
Qed.

Lemma processInput_normalized_witness :
  normalized (processInput (str "   ")) = [] /\
  sentences (processInput (str "   ")) = [] /\
  wordCount (processInput (str "   ")) = 0.
Proof.
  apply (proj2 (proj2 (processInput_normalized (str "   ")))).
  reflexivity.
Defined.

(** ** Texts without links and addresses *)

Lemma emailMatchLength_noAtSign s : noAtSign s = true -> emailMatchLength s = None.
Proof.
  intros H. unfold emailMatchLength.
  destruct (takeWhile isEmailChar s) as [|x l]; [reflexivity|].
  destruct (drop (length (x :: l)) s) as [|a rest] eqn:D; [reflexivity|].
  assert (Ha : noAtSign (a :: rest) = true).
  { rewrite <- D. eapply forallb_sublist; [apply sublist_drop | exact H]. }
  cbn [noAtSign forallb] in Ha. apply andb_true_iff in Ha as [Ha _].
  apply negb_true_iff in Ha. now rewrite Ha.
Qed.

Lemma removeMatches_email_fixed s :
  noAtSign s = true -> removeMatches emailMatchLength 0 s = s.
Proof.
  induction s as [|c s IH]; [reflexivity|]. intros H.
  cbn [removeMatches]. rewrite (emailMatchLength_noAtSign _ H).
  cbn [noAtSign forallb] in H. apply andb_true_iff in H as [_ H].
  now rewrite IH.
Qed.

(** X23: the substitutions of [processInput] tolerate the absence of
    their targets: for a text without URLs and without the character
    [@], the normalized text is the input with its white space collapsed
    and trimmed. *)
Theorem processInput_plain_text text :
  let t := trim (collapseWs text) in
  noUrlLeft t = true ->
  noAtSign t = true ->
  normalized (processInput text) = t /\
  wordCount (processInput text) = countWords text.
Proof.
  intros t U A. cbn [processInput normalized wordCount]. fold t.
  rewrite (removeMatches_url_fixed t U), (removeMatches_email_fixed t A).
  split; [reflexivity|]. subst t.
  rewrite !countWords_words, words_trim. unfold words.
  now rewrite splitWs_collapseWs.
Qed.

Lemma processInput_plain_text_witness :
  normalized (processInput (str "  Plain   words, nothing else.  "))
    = trim (collapseWs (str "  Plain   words, nothing else.  ")) /\
  wordCount (processInput (str "  Plain   words, nothing else.  "))
    = countWords (str "  Plain   words, nothing else.  ").
Proof.
  apply (processInput_plain_text (str "  Plain   words, nothing else.  "));
    reflexivity.
Defined.
